(** * ScanHanzi: the practice-lesson engine of [components/Lesson.tsx]

    A shallow embedding of the lesson component: the answer validator
    (normalisation, tone-mark to tone-number rewriting), the Fisher-Yates
    shuffle, the React state of the component with its two timer effects,
    and the event handlers, followed by the properties proved about them. *)

From Stdlib Require Import String.
From stdpp Require Import base numbers list.

Local Open Scope N_scope.

(** ** JavaScript strings

    A JavaScript string is a sequence of UTF-16 code units.  Literals are
    written as UTF-8 text and decoded by [utf16]. *)

Definition jsstring := list N.

Definition cont (b : N) : N := N.land b 0x3F.

(** Decoding of UTF-8 bytes into UTF-16 code units (a code point above
    U+FFFF becomes a surrogate pair, as in a JavaScript string). *)
Fixpoint decode_utf8 (bs : list N) : jsstring :=
  match bs with
  | [] => []
  | b0 :: r0 =>
    if b0 <? 0x80 then b0 :: decode_utf8 r0
    else
      match r0 with
      | [] => [b0]
      | b1 :: r1 =>
        if b0 <? 0xE0 then
          N.lor (N.shiftl (N.land b0 0x1F) 6) (cont b1) :: decode_utf8 r1
        else
          match r1 with
          | [] => [b0; b1]
          | b2 :: r2 =>
            if b0 <? 0xF0 then
              N.lor (N.shiftl (N.land b0 0x0F) 12)
                    (N.lor (N.shiftl (cont b1) 6) (cont b2)) :: decode_utf8 r2
            else
              match r2 with
              | [] => [b0; b1; b2]
              | b3 :: r3 =>
                let cp := N.lor (N.shiftl (N.land b0 0x07) 18)
                            (N.lor (N.shiftl (cont b1) 12)
                               (N.lor (N.shiftl (cont b2) 6) (cont b3))) in
                let v := cp - 0x10000 in
                (0xD800 + N.shiftr v 10) :: (0xDC00 + N.land v 0x3FF)
                  :: decode_utf8 r3
              end
          end
      end
  end.

Definition utf16 (s : string) : jsstring :=
  decode_utf8 (map Byte.to_N (list_byte_of_string s)).

(** The first code unit of a one-character literal. *)
Definition cu (s : string) : N := hd 0 (utf16 s).

(** ECMAScript WhiteSpace and LineTerminator code points: what [trim]
    strips and what [\s] matches. *)
Definition isWhiteSpace (c : N) : bool :=
  (c =? 0x09) || (c =? 0x0A) || (c =? 0x0B) || (c =? 0x0C) || (c =? 0x0D)
  || (c =? 0x20) || (c =? 0xA0) || (c =? 0x1680)
  || ((0x2000 <=? c) && (c <=? 0x200A))
  || (c =? 0x2028) || (c =? 0x2029) || (c =? 0x202F) || (c =? 0x205F)
  || (c =? 0x3000) || (c =? 0xFEFF).

Fixpoint trimStart (s : jsstring) : jsstring :=
  match s with
  | [] => []
  | c :: s' => if isWhiteSpace c then trimStart s' else s
  end.

Definition trimEnd (s : jsstring) : jsstring := rev (trimStart (rev s)).

(** [str.trim()] *)
Definition trim (s : jsstring) : jsstring := trimEnd (trimStart s).

(** [str.replace(/\s+/g, '')]: every run of white space is deleted. *)
Definition removeWhiteSpace (s : jsstring) : jsstring :=
  filter (λ c, isWhiteSpace c = false) s.

(** [str.replace(/[\u0300-\u036f]/g, ...)] with the empty replacement:
    combining diacritical marks are deleted. *)
Definition isCombiningMark (c : N) : bool := (0x0300 <=? c) && (c <=? 0x036F).

Definition stripCombiningMarks (s : jsstring) : jsstring :=
  filter (λ c, isCombiningMark c = false) s.

(** The two string built-ins of the host that depend on the Unicode
    character database: [String.prototype.toLowerCase] and
    [String.prototype.normalize("NFD")]. *)
Class Host := {
  toLowerCase : jsstring → jsstring;
  normalizeNFD : jsstring → jsstring
}.

(** ** The vocabulary entry ([FlashcardData]) *)

Record FlashcardData := {
  word : jsstring;
  pinyin : jsstring;
  translation : jsstring;
  hsk_level : jsstring;
  example_sentence : jsstring;
  notes : jsstring;
  dateAdded : option N
}.

Inductive LessonState := Setup | Active | Summary.
Inductive LessonMode := ModePinyinToHanzi | ModeHanziToPinyin | ModeTranslationToHanzi | ModeMixed.
Inductive TurnMode := PinyinToHanzi | HanziToPinyin | TranslationToHanzi.
Inductive Feedback := FbCorrect | FbIncorrect | FbNone.

Global Instance LessonState_eq_dec : EqDecision LessonState.
Proof. solve_decision. Defined.
Global Instance LessonMode_eq_dec : EqDecision LessonMode.
Proof. solve_decision. Defined.
Global Instance TurnMode_eq_dec : EqDecision TurnMode.
Proof. solve_decision. Defined.
Global Instance Feedback_eq_dec : EqDecision Feedback.
Proof. solve_decision. Defined.

(** ** Tone marks to tone numbers *)

(** [toneMap]: toned vowel, its base letter and its tone. *)
Definition toneMap : list (N * (N * N)) :=
  [ (cu "ā", (cu "a", 1)); (cu "á", (cu "a", 2)); (cu "ǎ", (cu "a", 3)); (cu "à", (cu "a", 4));
    (cu "ō", (cu "o", 1)); (cu "ó", (cu "o", 2)); (cu "ǒ", (cu "o", 3)); (cu "ò", (cu "o", 4));
    (cu "ē", (cu "e", 1)); (cu "é", (cu "e", 2)); (cu "ě", (cu "e", 3)); (cu "è", (cu "e", 4));
    (cu "ī", (cu "i", 1)); (cu "í", (cu "i", 2)); (cu "ǐ", (cu "i", 3)); (cu "ì", (cu "i", 4));
    (cu "ū", (cu "u", 1)); (cu "ú", (cu "u", 2)); (cu "ǔ", (cu "u", 3)); (cu "ù", (cu "u", 4));
    (cu "ǖ", (cu "v", 1)); (cu "ǘ", (cu "v", 2)); (cu "ǚ", (cu "v", 3)); (cu "ǜ", (cu "v", 4));
    (cu "ü", (cu "v", 5)) ].

(** [toneMap[char]] *)
Fixpoint assoc (k : N) (m : list (N * (N * N))) : option (N * N) :=
  match m with
  | [] => None
  | (k', v) :: m' => if k =? k' then Some v else assoc k m'
  end.

Definition toneMap_get (char : N) : option (N * N) := assoc char toneMap.

(** [[a-z]] under the [i] flag (no [u] flag): the ASCII letters. *)
Definition isAsciiLetter (c : N) : bool :=
  ((0x41 <=? c) && (c <=? 0x5A)) || ((0x61 <=? c) && (c <=? 0x7A)).

(** [pinyin.split(/(?<=[a-z])(?=[a-z])/i)]: the string is cut at every
    position that has an ASCII letter on both sides. *)
Fixpoint splitSyllables (s : jsstring) : list jsstring :=
  match s with
  | [] => [[]]
  | c :: s' =>
    match s' with
    | [] => [[c]]
    | d :: _ =>
      if isAsciiLetter c && isAsciiLetter d then [c] :: splitSyllables s'
      else
        match splitSyllables s' with
        | [] => [[c]]
        | p :: ps => (c :: p) :: ps
        end
    end
  end.

(** The decimal rendering of a tone; tones range over 1..5. *)
Definition toneToString (tone : N) : jsstring := [0x30 + tone].

(** One iteration of [for (const char of syllable)] on the loop variables
    [(result, tone, toneFound)].  The keys of [toneMap] are single code
    units, so the two halves of a surrogate pair are copied like the pair
    itself and the loop can run over code units. *)
Definition syllableStep (acc : jsstring * N * bool) (char : N) : jsstring * N * bool :=
  let '(result, tone, toneFound) := acc in
  match toneMap_get char with
  | Some (base, t) => (result ++ [base], t, true)
  | None => (result ++ [char], tone, toneFound)
  end.

(** The callback of [syllables.map]. *)
Definition rewriteSyllable (syllable : jsstring) : jsstring :=
  let '(result, tone, toneFound) := fold_left syllableStep syllable ([], 5, false) in
  result ++ (if toneFound then toneToString tone else []).

Definition pinyinToneMarksToNumbers (pinyin : jsstring) : jsstring :=
  concat (map rewriteSyllable (splitSyllables pinyin)).

(** ** The answer check of [handleCheckAnswer] *)

Section Validator.
Context `{Host}.

(** [const normalize = (str) => str.trim().toLowerCase().replace(/\s+/g, '')] *)
Definition normalize (str : jsstring) : jsstring :=
  removeWhiteSpace (toLowerCase (trim str)).

(** The three accepted forms of the [hanziToPinyin] case. *)
Definition correctPinyinWithMarks (card : FlashcardData) : jsstring :=
  normalize (pinyin card).

Definition correctPinyinWithNumbers (card : FlashcardData) : jsstring :=
  pinyinToneMarksToNumbers (correctPinyinWithMarks card).

Definition correctPinyinNoTones (card : FlashcardData) : jsstring :=
  stripCombiningMarks (normalizeNFD (correctPinyinWithMarks card)).

(** The [switch (currentTurnMode)] that computes [isCorrect]. *)
Definition isCorrect (currentTurnMode : TurnMode) (currentCard : FlashcardData)
    (userInput : jsstring) : bool :=
  match currentTurnMode with
  | HanziToPinyin =>
    bool_decide (normalize userInput ∈
      [correctPinyinWithMarks currentCard; correctPinyinWithNumbers currentCard;
       correctPinyinNoTones currentCard])
  | PinyinToHanzi | TranslationToHanzi =>
    bool_decide (normalize userInput = normalize (word currentCard))
  end.

End Validator.

(** A host for pinyin text: lower-casing of the ASCII letters and of the
    upper-case toned vowels, canonical decomposition of the lower-case
    toned vowels (the keys of [toneMap]), every other code unit left as it
    is.  It agrees with the built-ins on the strings that the answer check
    passes to them when the text is made of ASCII characters, toned vowels
    of pinyin and Chinese characters. *)
Definition upperTonedVowels : list (N * N) :=
  [ (cu "Ā", cu "ā"); (cu "Á", cu "á"); (cu "Ǎ", cu "ǎ"); (cu "À", cu "à");
    (cu "Ō", cu "ō"); (cu "Ó", cu "ó"); (cu "Ǒ", cu "ǒ"); (cu "Ò", cu "ò");
    (cu "Ē", cu "ē"); (cu "É", cu "é"); (cu "Ě", cu "ě"); (cu "È", cu "è");
    (cu "Ī", cu "ī"); (cu "Í", cu "í"); (cu "Ǐ", cu "ǐ"); (cu "Ì", cu "ì");
    (cu "Ū", cu "ū"); (cu "Ú", cu "ú"); (cu "Ǔ", cu "ǔ"); (cu "Ù", cu "ù");
    (cu "Ǖ", cu "ǖ"); (cu "Ǘ", cu "ǘ"); (cu "Ǚ", cu "ǚ"); (cu "Ǜ", cu "ǜ");
    (cu "Ü", cu "ü") ].

Definition lowerUnit (c : N) : N :=
  if (0x41 <=? c) && (c <=? 0x5A) then c + 0x20
  else
    match list_find (λ p, p.1 = c) upperTonedVowels with
    | Some (_, (_, l)) => l
    | None => c
    end.

(** The combining mark of a tone: macron, acute, caron, grave. *)
Definition toneMark (tone : N) : jsstring :=
  match tone with
  | 1 => [0x0304] | 2 => [0x0301] | 3 => [0x030C] | 4 => [0x0300]
  | _ => []
  end.

Definition decomposeUnit (c : N) : jsstring :=
  match toneMap_get c with
  | Some (base, tone) =>
    (if base =? cu "v" then [cu "u"; 0x0308] else [base]) ++ toneMark tone
  | None => [c]
  end.

Definition pinyinHost : Host :=
  {| toLowerCase := map lowerUnit; normalizeNFD := flat_map decomposeUnit |}.

(** ** The Fisher-Yates shuffle

    [Math.random()] is a fraction [r / 2^53] with [0 <= r < 2^53]; the
    stream of numerators that the calls return is an argument, and the
    product with the bound is taken exactly. *)

Definition RandomSource := nat → N.

(** [Math.floor(Math.random() * n)] *)
Definition floorRandom (r : N) (n : nat) : nat :=
  N.to_nat ((r mod 2 ^ 53) * N.of_nat n / 2 ^ 53).

(** [[array[i], array[j]] = [array[j], array[i]]]: both elements are read,
    then [array[i]] and [array[j]] are written in this order.  The indices
    of the shuffle are below the length; outside it the list is left
    alone. *)
Definition swap {A} (array : list A) (i j : nat) : list A :=
  match array !! j, array !! i with
  | Some aj, Some ai => <[j:=ai]> (<[i:=aj]> array)
  | _, _ => array
  end.

(** The [while (currentIndex !== 0)] loop; the argument is the value of
    [currentIndex] on entry of the iteration. *)
Fixpoint shuffleLoop {A} (currentIndex : nat) (random : RandomSource) (array : list A) : list A :=
  match currentIndex with
  | O => array
  | S currentIndex' =>
    let randomIndex := floorRandom (random O) currentIndex in
    shuffleLoop currentIndex' (λ k, random (S k)) (swap array currentIndex' randomIndex)
  end.

Definition shuffleArray {A} (random : RandomSource) (array : list A) : list A :=
  shuffleLoop (length array) random array.

Local Close Scope N_scope.

(** ** The state of the [Lesson] component *)

(** An array index held in a JavaScript number: [x % 0] is [NaN]. *)
Inductive JsIndex := Idx (n : nat) | NaN.

Global Instance JsIndex_eq_dec : EqDecision JsIndex.
Proof. solve_decision. Defined.

Definition LESSON_DURATION : Z := 300.
Definition LESSON_CARD_GOAL : nat := 30.

(** One field per [useState] of the component. *)
Record LessonSt := {
  lessonState : LessonState;
  lessonMode : LessonMode;
  shuffledDeck : list FlashcardData;
  currentCardIndex : JsIndex;
  currentTurnMode : TurnMode;
  userInput : jsstring;
  feedback : Feedback;
  score : nat;
  timeLeft : Z;
  cardsAnswered : nat;
  isPaused : bool;
  incorrectAnswers : list FlashcardData
}.

Definition initialState : LessonSt :=
  {| lessonState := Setup; lessonMode := ModeHanziToPinyin; shuffledDeck := [];
     currentCardIndex := Idx 0; currentTurnMode := HanziToPinyin; userInput := [];
     feedback := FbNone; score := 0; timeLeft := LESSON_DURATION; cardsAnswered := 0;
     isPaused := false; incorrectAnswers := [] |}.

Definition setLessonState (v : LessonState) (s : LessonSt) : LessonSt :=
  {| lessonState := v; lessonMode := lessonMode s; shuffledDeck := shuffledDeck s;
     currentCardIndex := currentCardIndex s; currentTurnMode := currentTurnMode s;
     userInput := userInput s; feedback := feedback s; score := score s;
     timeLeft := timeLeft s; cardsAnswered := cardsAnswered s; isPaused := isPaused s;
     incorrectAnswers := incorrectAnswers s |}.

Definition setLessonMode (v : LessonMode) (s : LessonSt) : LessonSt :=
  {| lessonState := lessonState s; lessonMode := v; shuffledDeck := shuffledDeck s;
     currentCardIndex := currentCardIndex s; currentTurnMode := currentTurnMode s;
     userInput := userInput s; feedback := feedback s; score := score s;
     timeLeft := timeLeft s; cardsAnswered := cardsAnswered s; isPaused := isPaused s;
     incorrectAnswers := incorrectAnswers s |}.

Definition setUserInput (v : jsstring) (s : LessonSt) : LessonSt :=
  {| lessonState := lessonState s; lessonMode := lessonMode s; shuffledDeck := shuffledDeck s;
     currentCardIndex := currentCardIndex s; currentTurnMode := currentTurnMode s;
     userInput := v; feedback := feedback s; score := score s;
     timeLeft := timeLeft s; cardsAnswered := cardsAnswered s; isPaused := isPaused s;
     incorrectAnswers := incorrectAnswers s |}.

Definition setTimeLeft (f : Z → Z) (s : LessonSt) : LessonSt :=
  {| lessonState := lessonState s; lessonMode := lessonMode s; shuffledDeck := shuffledDeck s;
     currentCardIndex := currentCardIndex s; currentTurnMode := currentTurnMode s;
     userInput := userInput s; feedback := feedback s; score := score s;
     timeLeft := f (timeLeft s); cardsAnswered := cardsAnswered s; isPaused := isPaused s;
     incorrectAnswers := incorrectAnswers s |}.

Definition setIsPaused (v : bool) (s : LessonSt) : LessonSt :=
  {| lessonState := lessonState s; lessonMode := lessonMode s; shuffledDeck := shuffledDeck s;
     currentCardIndex := currentCardIndex s; currentTurnMode := currentTurnMode s;
     userInput := userInput s; feedback := feedback s; score := score s;
     timeLeft := timeLeft s; cardsAnswered := cardsAnswered s; isPaused := v;
     incorrectAnswers := incorrectAnswers s |}.

(** [shuffledDeck[currentCardIndex]]; [None] is [undefined]. *)
Definition currentCardOf (s : LessonSt) : option FlashcardData :=
  match currentCardIndex s with
  | Idx n => shuffledDeck s !! n
  | NaN => None
  end.

(** [(prev + 1) % length] *)
Definition nextIndex (prev : JsIndex) (deckLength : nat) : JsIndex :=
  match prev, deckLength with
  | Idx n, S _ => Idx ((n + 1) mod deckLength)
  | _, _ => NaN
  end.

(** [modes[Math.floor(Math.random() * modes.length)]] *)
Definition modes : list TurnMode := [HanziToPinyin; PinyinToHanzi; TranslationToHanzi].

Definition randomTurnMode (r : N) (current : TurnMode) : TurnMode :=
  default current (modes !! floorRandom r (length modes)).

(** [lessonMode as TurnMode], on a mode that is not [mixed]. *)
Definition asTurnMode (m : LessonMode) (current : TurnMode) : TurnMode :=
  match m with
  | ModePinyinToHanzi => PinyinToHanzi
  | ModeHanziToPinyin => HanziToPinyin
  | ModeTranslationToHanzi => TranslationToHanzi
  | ModeMixed => current
  end.

(** ** The event handlers *)

(** [handleStartLesson]; [flashcards] is the prop of the component at the
    time of the click.  The shuffle draws first, the turn mode after it. *)
Definition handleStartLesson (flashcards : list FlashcardData) (random : RandomSource)
    (s : LessonSt) : LessonSt :=
  if bool_decide (length flashcards = 0) then s
  else
    {| lessonState := Active;
       lessonMode := lessonMode s;
       shuffledDeck := shuffleArray random flashcards;
       currentCardIndex := Idx 0;
       currentTurnMode :=
         if bool_decide (lessonMode s = ModeMixed)
         then randomTurnMode (random (length flashcards)) (currentTurnMode s)
         else asTurnMode (lessonMode s) (currentTurnMode s);
       userInput := userInput s;
       feedback := feedback s;
       score := 0;
       timeLeft := LESSON_DURATION;
       cardsAnswered := 0;
       isPaused := false;
       incorrectAnswers := [] |}.

(** [prev.find(c => c.word === currentCard.word)] is not [undefined]. *)
Definition findWord (w : jsstring) (prev : list FlashcardData) : bool :=
  bool_decide (Exists (λ c, word c = w) prev).

(** The updater passed to [setIncorrectAnswers]. *)
Definition addIncorrect (currentCard : FlashcardData) (prev : list FlashcardData)
    : list FlashcardData :=
  if findWord (word currentCard) prev then prev else prev ++ [currentCard].

(** [handleCheckAnswer].  [None] stands for the [TypeError] of reading a
    field of an [undefined] current card; no state update has been queued
    at that point. *)
Definition handleCheckAnswer `{Host} (s : LessonSt) : option LessonSt :=
  if bool_decide (trim (userInput s) = []) || bool_decide (feedback s ≠ FbNone)
  then Some s
  else
    match currentCardOf s with
    | None => None
    | Some currentCard =>
      let ok := isCorrect (currentTurnMode s) currentCard (userInput s) in
      Some
        {| lessonState := lessonState s; lessonMode := lessonMode s;
           shuffledDeck := shuffledDeck s; currentCardIndex := currentCardIndex s;
           currentTurnMode := currentTurnMode s; userInput := userInput s;
           feedback := if ok then FbCorrect else FbIncorrect;
           score := if ok then score s + 1 else score s;
           timeLeft := timeLeft s;
           cardsAnswered := cardsAnswered s + 1;
           isPaused := isPaused s;
           incorrectAnswers :=
             if ok then incorrectAnswers s
             else addIncorrect currentCard (incorrectAnswers s) |}
    end.

(** The callback of the feedback [setTimeout]; [deckLength] and [mode] are
    the values of [shuffledDeck.length] and [lessonMode] in its closure, [r]
    the numerator of its [Math.random()]. *)
Definition feedbackCallback (deckLength : nat) (mode : LessonMode) (r : N) (s : LessonSt)
    : LessonSt :=
  {| lessonState := lessonState s; lessonMode := lessonMode s;
     shuffledDeck := shuffledDeck s;
     currentCardIndex := nextIndex (currentCardIndex s) deckLength;
     currentTurnMode :=
       if bool_decide (mode = ModeMixed) then randomTurnMode r (currentTurnMode s)
       else currentTurnMode s;
     userInput := [];
     feedback := FbNone;
     score := score s; timeLeft := timeLeft s; cardsAnswered := cardsAnswered s;
     isPaused := isPaused s; incorrectAnswers := incorrectAnswers s |}.

(** The callback of the tick [setInterval]. *)
Definition tickCallback (s : LessonSt) : LessonSt := setTimeLeft (λ prev, prev - 1)%Z s.

(** ** The two timer effects

    A mounted component is its state together with the timers that its
    effects have left running.  The feedback timer keeps the closure of its
    callback. *)
Record Component := {
  state : LessonSt;
  tickTimer : bool;
  feedbackTimer : option (nat * LessonMode)
}.

(** The dependency arrays of the two [useEffect] calls. *)
Definition tickDeps (s : LessonSt) : LessonState * Z * bool :=
  (lessonState s, timeLeft s, isPaused s).

Definition feedbackDeps (s : LessonSt) : Feedback * nat * LessonMode :=
  (feedback s, length (shuffledDeck s), lessonMode s).

(** The body of the tick effect: the interval it leaves running and
    whether it calls [setLessonState('summary')]. *)
Definition tickEffect (s : LessonSt) : bool * bool :=
  if bool_decide (lessonState s = Active) && negb (isPaused s) && bool_decide (0 < timeLeft s)%Z
  then (true, false)
  else if bool_decide (timeLeft s = 0%Z) && bool_decide (lessonState s = Active)
  then (false, true)
  else (false, false).

(** The body of the feedback effect: the timeout it leaves pending. *)
Definition feedbackEffect (s : LessonSt) : option (nat * LessonMode) :=
  if bool_decide (feedback s ≠ FbNone)
  then Some (length (shuffledDeck s), lessonMode s)
  else None.

(** The effects after the render of [next] that follows the render of
    [prev]: an effect whose dependencies changed is cleaned up (its timer
    is cleared) and run again, the other keeps its timer. *)
Definition runEffects (prev next : LessonSt) (tick : bool) (fb : option (nat * LessonMode))
    : bool * option (nat * LessonMode) * bool :=
  let '(tick', toSummary) :=
    if bool_decide (tickDeps prev = tickDeps next) then (tick, false)
    else tickEffect next in
  let fb' :=
    if bool_decide (feedbackDeps prev = feedbackDeps next) then fb
    else feedbackEffect next in
  (tick', fb', toSummary).

(** A state update is committed: the component renders [next], its effects
    run, and the render caused by the state update of the tick effect, if
    any, follows with its own effects. *)
Definition commit (c : Component) (next : LessonSt) : Component :=
  let '(tick1, fb1, toSummary) := runEffects (state c) next (tickTimer c) (feedbackTimer c) in
  if toSummary then
    let next2 := setLessonState Summary next in
    let '(tick2, fb2, _) := runEffects next next2 tick1 fb1 in
    {| state := next2; tickTimer := tick2; feedbackTimer := fb2 |}
  else {| state := next; tickTimer := tick1; feedbackTimer := fb1 |}.

(** The component after its first render: no effect starts a timer. *)
Definition mount : Component :=
  {| state := initialState;
     tickTimer := (tickEffect initialState).1;
     feedbackTimer := feedbackEffect initialState |}.

(** ** Events

    What can happen to a mounted component: a click or an input in the view
    that is rendered, or one of the two timers firing.  An event of the
    form is taken whenever the active view is rendered: the [disabled]
    attribute of its controls is left out, the guard of the handler is
    not. *)
Inductive Event :=
  | ChooseMode (m : LessonMode)
  | StartLesson (flashcards : list FlashcardData) (random : RandomSource)
  | ChangeInput (text : jsstring)
  | CheckAnswer
  | TogglePause
  | Resume
  | Exit
  | ChooseAnotherMode
  | Tick
  | FeedbackTimeout (r : N).

Definition step `{Host} (e : Event) (c : Component) : option Component :=
  let s := state c in
  match e with
  | ChooseMode m =>
    if bool_decide (lessonState s = Setup) then Some (commit c (setLessonMode m s)) else None
  | StartLesson flashcards random =>
    match lessonState s with
    | Setup =>
      if bool_decide (0 < length flashcards)
      then Some (commit c (handleStartLesson flashcards random s)) else None
    | Summary => Some (commit c (handleStartLesson flashcards random s))
    | Active => None
    end
  | ChangeInput text =>
    if bool_decide (lessonState s = Active) then Some (commit c (setUserInput text s)) else None
  | CheckAnswer =>
    if bool_decide (lessonState s = Active)
    then Some (commit c (default s (handleCheckAnswer s))) else None
  | TogglePause =>
    if bool_decide (lessonState s = Active)
    then Some (commit c (setIsPaused (negb (isPaused s)) s)) else None
  | Resume =>
    if bool_decide (lessonState s = Active) && isPaused s
    then Some (commit c (setIsPaused false s)) else None
  | Exit =>
    if bool_decide (lessonState s = Active) then Some (commit c (setLessonState Setup s)) else None
  | ChooseAnotherMode =>
    if bool_decide (lessonState s = Summary) then Some (commit c (setLessonState Setup s)) else None
  | Tick =>
    if tickTimer c then Some (commit c (tickCallback s)) else None
  | FeedbackTimeout r =>
    match feedbackTimer c with
    | Some (deckLength, mode) => Some (commit c (feedbackCallback deckLength mode r s))
    | None => None
    end
  end.

(** A run of events from a component; [None] when one of them cannot
    happen in the component it meets. *)
Fixpoint run `{Host} (es : list Event) (c : Component) : option Component :=
  match es with
  | [] => Some c
  | e :: es' =>
    match step e c with
    | Some c' => run es' c'
    | None => None
    end
  end.

(** The components that a mounted lesson can be in. *)
Inductive reachable `{Host} : Component → Prop :=
  | reachable_mount : reachable mount
  | reachable_step e c c' : reachable c → step e c = Some c' → reachable c'.

(** ** Invariants of a mounted component *)

(** The timers of a component are the ones its effects start on its state,
    and no state update of the tick effect is outstanding. *)
Definition timersAgree (c : Component) : Prop :=
  tickTimer c = (tickEffect (state c)).1
  ∧ feedbackTimer c = feedbackEffect (state c)
  ∧ (tickEffect (state c)).2 = false.

(** What holds of the session data: the time stays within the budget, a
    lesson that runs or shows feedback has a deck, the index is a position
    of the deck, no word is twice in the review list, and the score is at
    most the number of answers. *)
Record sessionInv (s : LessonSt) : Prop := {
  inv_time : (0 ≤ timeLeft s ≤ LESSON_DURATION)%Z;
  inv_active_deck : lessonState s = Active → shuffledDeck s ≠ [];
  inv_feedback_deck : feedback s ≠ FbNone → shuffledDeck s ≠ [];
  inv_index : ∃ n, currentCardIndex s = Idx n
                ∧ (shuffledDeck s ≠ [] → n < length (shuffledDeck s));
  inv_missed : NoDup (map word (incorrectAnswers s));
  inv_score : score s ≤ cardsAnswered s
}.

Definition invariant (c : Component) : Prop := timersAgree c ∧ sessionInv (state c).

(** The fields that a pause or a resume has to leave alone. *)
Definition sameSession (s s' : LessonSt) : Prop :=
  score s' = score s ∧ cardsAnswered s' = cardsAnswered s ∧ timeLeft s' = timeLeft s
  ∧ currentCardIndex s' = currentCardIndex s ∧ shuffledDeck s' = shuffledDeck s
  ∧ currentTurnMode s' = currentTurnMode s ∧ feedback s' = feedback s
  ∧ userInput s' = userInput s ∧ incorrectAnswers s' = incorrectAnswers s
  ∧ lessonMode s' = lessonMode s.

(** ** What a rewritten piece is

    The letters of a piece with every toned vowel replaced by its base
    letter, and the tones of its toned vowels in order. *)
Definition baseLetter (c : N) : N :=
  match toneMap_get c with
  | Some (base, _) => base
  | None => c
  end.

Definition tonesOf (syllable : jsstring) : list N :=
  omap (λ c, snd <$> toneMap_get c) syllable.

(** ** Sample data *)

(** An entry with the given word and pronunciation. *)
Definition entry (w p : string) : FlashcardData :=
  {| word := utf16 w; pinyin := utf16 p; translation := []; hsk_level := [];
     example_sentence := []; notes := []; dateAdded := None |}.

Definition ni_hao : FlashcardData := entry "你好" "nǐ hǎo".
Definition ma : FlashcardData := entry "吗" "ma".

(** A random source whose draws are all 0, and a lesson on two entries
    started with it: the shuffle puts [ma] first. *)
Definition zeros : RandomSource := λ _, 0%N.

Definition sampleDeck : list FlashcardData := [ni_hao; ma].

(** The learner starts the lesson and types a wrong answer. *)
Definition typing : list Event :=
  [StartLesson sampleDeck zeros; ChangeInput (utf16 "x")].

Definition typedAnswer : Component :=
  default mount (@run pinyinHost typing mount).

(** The answer is checked, and the learner pauses while the feedback is
    shown. *)
Definition pausedWithFeedback : Component :=
  default mount (@run pinyinHost (typing ++ [CheckAnswer; TogglePause]) mount).

(** The learner answers in the last second of the lesson. *)
Definition lastSecond : list Event :=
  StartLesson sampleDeck zeros :: replicate 299 Tick ++ [ChangeInput (utf16 "x"); CheckAnswer].

Definition answeredAtLastSecond : Component :=
  default mount (@run pinyinHost lastSecond mount).

(** The last tick arrives while the feedback of that answer is shown. *)
Definition expired : Component :=
  default mount (@run pinyinHost (lastSecond ++ [Tick]) mount).

(** ** The clock of the active view

    [{Math.floor(timeLeft / 60)}:{('0' + timeLeft % 60).slice(-2)}] *)

(** The decimal digits of a numeral, most significant first. *)
Fixpoint uintToString (d : Decimal.uint) : jsstring :=
  match d with
  | Decimal.Nil => []
  | Decimal.D0 d' => 0x30%N :: uintToString d'
  | Decimal.D1 d' => 0x31%N :: uintToString d'
  | Decimal.D2 d' => 0x32%N :: uintToString d'
  | Decimal.D3 d' => 0x33%N :: uintToString d'
  | Decimal.D4 d' => 0x34%N :: uintToString d'
  | Decimal.D5 d' => 0x35%N :: uintToString d'
  | Decimal.D6 d' => 0x36%N :: uintToString d'
  | Decimal.D7 d' => 0x37%N :: uintToString d'
  | Decimal.D8 d' => 0x38%N :: uintToString d'
  | Decimal.D9 d' => 0x39%N :: uintToString d'
  end.

(** The string of a number that is an integer. *)
Definition numberToString (z : Z) : jsstring :=
  match Z.to_int z with
  | Decimal.Pos d => uintToString d
  | Decimal.Neg d => cu "-" :: uintToString d
  end.

(** [str.slice(-2)]: the last two code units, or all of a shorter string. *)
Definition sliceLast2 (str : jsstring) : jsstring := drop (length str - 2) str.

(** The text after "Time: ".  On integers [Math.floor(x / 60)] is the
    quotient rounded down and [x % 60] the remainder with the sign of
    [x]. *)
Definition clockText (timeLeft : Z) : jsstring :=
  numberToString (timeLeft `div` 60)%Z ++ utf16 ":"
  ++ sliceLast2 (utf16 "0" ++ numberToString (timeLeft `rem` 60)%Z).

(** ** More invariants of the session data

    The answers that were not scored account for the review list, the
    review list is drawn from the deck, and outside the setup view a lesson
    of a fixed mode asks in the direction of that mode. *)
Record ledgerInv (s : LessonSt) : Prop := {
  led_count : score s + length (incorrectAnswers s) ≤ cardsAnswered s;
  led_deck : ∀ card, card ∈ incorrectAnswers s → card ∈ shuffledDeck s;
  led_mode : lessonState s ≠ Setup →
             asTurnMode (lessonMode s) (currentTurnMode s) = currentTurnMode s
}.

(** ** The deck of the application ([App.tsx], [FlashcardGrid.tsx])

    The lesson gets the saved flashcards of the application as its
    [flashcards] prop.  Every update of the saved flashcards is also
    written to the local storage. *)

(** [{ ...card, dateAdded: Date.now() }] *)
Definition withDate (card : FlashcardData) (now : N) : FlashcardData :=
  {| word := word card; pinyin := pinyin card; translation := translation card;
     hsk_level := hsk_level card; example_sentence := example_sentence card;
     notes := notes card; dateAdded := Some now |}.

(** [handleSaveCard]: the saved flashcards after the call; [now] is the
    value of [Date.now()]. *)
Definition handleSaveCard (cardToSave : FlashcardData) (now : N)
    (savedFlashcards : list FlashcardData) : list FlashcardData :=
  let isAlreadySaved :=
    bool_decide (Exists (λ card, word card = word cardToSave) savedFlashcards) in
  if negb isAlreadySaved then savedFlashcards ++ [withDate cardToSave now]
  else savedFlashcards.

(** The auto-save effect: the saved flashcards after one run; [now i] is
    the value of [Date.now()] for the new card at position [i]. *)
Definition autoSaveEffect (autoSave : bool) (generatedFlashcards : list FlashcardData)
    (now : nat → N) (savedFlashcards : list FlashcardData) : list FlashcardData :=
  if autoSave && bool_decide (0 < length generatedFlashcards) then
    let savedWords := map word savedFlashcards in
    let newCardsToSave :=
      imap (λ i card, withDate card (now i))
        (filter (λ card, word card ∉ savedWords) generatedFlashcards) in
    if bool_decide (0 < length newCardsToSave)
    then savedFlashcards ++ newCardsToSave
    else savedFlashcards
  else savedFlashcards.

(** [isSaved] of a card of the grid: [savedWords.has(card.word)]. *)
Definition isSaved (savedFlashcards : list FlashcardData) (card : FlashcardData) : bool :=
  bool_decide (word card ∈ map word savedFlashcards).

(** ** Adjacent letters

    Whether a string has two ASCII letters next to each other: the places
    where the split regex matches. *)
Fixpoint hasAdjacentLetters (s : jsstring) : bool :=
  match s with
  | [] => false
  | c :: s' =>
    match s' with
    | [] => false
    | d :: _ => (isAsciiLetter c && isAsciiLetter d) || hasAdjacentLetters s'
    end
  end.

(** The fields that a tick has to leave alone. *)
Definition sameButClock (s s' : LessonSt) : Prop :=
  score s' = score s ∧ cardsAnswered s' = cardsAnswered s
  ∧ currentCardIndex s' = currentCardIndex s ∧ shuffledDeck s' = shuffledDeck s
  ∧ currentTurnMode s' = currentTurnMode s ∧ feedback s' = feedback s
  ∧ userInput s' = userInput s ∧ incorrectAnswers s' = incorrectAnswers s
  ∧ lessonMode s' = lessonMode s ∧ isPaused s' = isPaused s.

(** The lesson on the sample deck right after its start. *)
Definition started : Component :=
  default mount (@run pinyinHost [StartLesson sampleDeck zeros] mount).

(** * Properties *)

(** ** The answer validator *)

Lemma fold_syllableStep_plain (syllable result : jsstring) (tone : N) (toneFound : bool) :
  Forall (λ c, toneMap_get c = None) syllable →
  fold_left syllableStep syllable (result, tone, toneFound)
  = (result ++ syllable, tone, toneFound).
Proof.
  intros Hplain. revert result.
  induction Hplain as [|c rest Hc _ IH]; intros result; simpl.
  - by rewrite app_nil_r.
  - rewrite Hc, IH. by rewrite <- app_assoc.
Qed.

(** The loop of the callback: the result grows by the base letters, the
    tone is the one of the last toned vowel met. *)
Lemma fold_syllableStep_spec (syllable result : jsstring) (tone : N) (toneFound : bool) :
  fold_left syllableStep syllable (result, tone, toneFound)
  = (result ++ map baseLetter syllable,
     default tone (last (tonesOf syllable)),
     toneFound || bool_decide (tonesOf syllable ≠ [])).
Proof.
  revert result tone toneFound.
  induction syllable as [|c rest IH]; intros result tone toneFound; simpl.
  - by rewrite app_nil_r, orb_false_r.
  - unfold tonesOf, baseLetter. simpl.
    destruct (toneMap_get c) as [[base t]|] eqn:Hc; simpl; rewrite IH.
    + rewrite <- app_assoc. simpl. f_equal; [f_equal|].
      * rewrite last_cons. fold (tonesOf rest). by destruct (last (tonesOf rest)).
      * by rewrite orb_true_r.
    + rewrite <- app_assoc. done.
Qed.

(** A piece is rewritten to its base letters followed by the tone of its
    last toned vowel, if it has one. *)
Lemma rewriteSyllable_spec (syllable : jsstring) :
  rewriteSyllable syllable
  = map baseLetter syllable
    ++ match last (tonesOf syllable) with
       | Some tone => toneToString tone
       | None => []
       end.
Proof.
  unfold rewriteSyllable. rewrite fold_syllableStep_spec. simpl.
  destruct (last (tonesOf syllable)) as [tone|] eqn:Hlast.
  - rewrite bool_decide_eq_true_2; [done|]. intros Hnil. by rewrite Hnil in Hlast.
  - apply last_None in Hlast. by rewrite Hlast.
Qed.

Lemma rewriteSyllable_plain (syllable : jsstring) :
  Forall (λ c, toneMap_get c = None) syllable → rewriteSyllable syllable = syllable.
Proof.
  intros Hplain. unfold rewriteSyllable.
  rewrite fold_syllableStep_plain by done. simpl. by rewrite app_nil_r.
Qed.

(** Joining the pieces of the split gives the string back. *)
Lemma concat_splitSyllables (s : jsstring) : concat (splitSyllables s) = s.
Proof.
  induction s as [|c s' IH]; [done|].
  simpl. destruct s' as [|d s'']; [done|].
  destruct (isAsciiLetter c && isAsciiLetter d).
  - simpl in *. by rewrite IH.
  - destruct (splitSyllables (d :: s'')) as [|p ps]; simpl in *; by rewrite <- IH.
Qed.

Lemma splitSyllables_Forall (P : N → Prop) (s : jsstring) :
  Forall P s → Forall (Forall P) (splitSyllables s).
Proof.
  intros Hs. rewrite <- (concat_splitSyllables s) in Hs.
  by apply Forall_concat.
Qed.

Lemma pinyinToneMarksToNumbers_plain (s : jsstring) :
  Forall (λ c, toneMap_get c = None) s → pinyinToneMarksToNumbers s = s.
Proof.
  intros Hs. unfold pinyinToneMarksToNumbers.
  rewrite <- (concat_splitSyllables s) at 2. f_equal.
  apply splitSyllables_Forall in Hs.
  induction Hs as [|p ps Hp _ IH]; simpl; [done|].
  by rewrite rewriteSyllable_plain, IH.
Qed.

(** A piece that holds a plain [ü] and no toned vowel is given the digit 5. *)
Example numbers_of_lv : pinyinToneMarksToNumbers (utf16 "lü") = utf16 "lv5".
Proof. vm_compute. reflexivity. Qed.

(** The pieces of the split are not syllables: every pair of adjacent ASCII
    letters is cut, and the digit lands after the piece of the toned vowel. *)
Example numbers_of_zhongguo :
  splitSyllables (utf16 "zhōngguó") = [utf16 "z"; utf16 "hōn"; utf16 "g"; utf16 "g"; utf16 "uó"]
  ∧ pinyinToneMarksToNumbers (utf16 "zhōngguó") = utf16 "zhon1gguo2".
Proof. vm_compute. done. Qed.

(** C2: with the pronunciation "nǐ hǎo" the normalised form "nǐhǎo" has no
    two adjacent ASCII letters, so it is one piece; both toned vowels are
    replaced, one digit (the tone of the last one) is appended, and the
    accepted numeric form is "nihao3".  The answer "ni3hao3" is rejected. *)
Theorem ni_hao_numeric_form_rejected :
  splitSyllables (@correctPinyinWithMarks pinyinHost ni_hao) = [utf16 "nǐhǎo"]
  ∧ @correctPinyinWithNumbers pinyinHost ni_hao = utf16 "nihao3"
  ∧ @correctPinyinNoTones pinyinHost ni_hao = utf16 "nihao"
  ∧ @isCorrect pinyinHost HanziToPinyin ni_hao (utf16 "ni3hao3") = false
  ∧ @isCorrect pinyinHost HanziToPinyin ni_hao (utf16 "nihao3") = true.
Proof. vm_compute. done. Qed.

(** C4, as stated, fails: the pronunciation "ma" has no tone mark, and its
    numeric-tone form is "ma" itself; it does not end in the digit 5. *)
Lemma untoned_ma_gets_no_digit :
  @correctPinyinWithNumbers pinyinHost ma = utf16 "ma"
  ∧ last (@correctPinyinWithNumbers pinyinHost ma) ≠ Some (cu "5")
  ∧ Forall (λ piece, last (rewriteSyllable piece) ≠ Some (cu "5"))
      (splitSyllables (@correctPinyinWithMarks pinyinHost ma)).
Proof.
  split; [by vm_compute|]. split; [by vm_compute|].
  vm_compute. repeat constructor; discriminate.
Qed.

(** C4, amended: a pronunciation in which no character of the tone table
    occurs (no toned vowel and no [ü]) is its own numeric-tone form: no
    digit is appended to any of its pieces. *)
Theorem untoned_numeric_form_unchanged `{Host} (card : FlashcardData) :
  Forall (λ c, toneMap_get c = None) (correctPinyinWithMarks card) →
  correctPinyinWithNumbers card = correctPinyinWithMarks card
  ∧ Forall (λ piece, rewriteSyllable piece = piece)
      (splitSyllables (correctPinyinWithMarks card)).
Proof.
  intros Hplain. split.
  - by apply pinyinToneMarksToNumbers_plain.
  - eapply Forall_impl; [by apply splitSyllables_Forall|].
    intros piece Hpiece. by apply rewriteSyllable_plain.
Qed.

(** The amended statement at the pronunciation "ma". *)
Lemma untoned_numeric_form_unchanged_witness :
  @correctPinyinWithNumbers pinyinHost ma = @correctPinyinWithMarks pinyinHost ma
  ∧ Forall (λ piece, rewriteSyllable piece = piece)
      (splitSyllables (@correctPinyinWithMarks pinyinHost ma)).
Proof.
  apply (@untoned_numeric_form_unchanged pinyinHost ma).
  vm_compute. repeat constructor.
Defined.

(** ** The shuffle *)

Lemma floorRandom_lt (r : N) (n : nat) : 0 < n → floorRandom r n < n.
Proof.
  intros Hn. unfold floorRandom.
  assert (Hr : (r mod 2 ^ 53 < 2 ^ 53)%N) by (apply N.mod_lt; done).
  assert (((r mod 2 ^ 53) * N.of_nat n / 2 ^ 53 < N.of_nat n)%N); [|lia].
  apply N.Div0.div_lt_upper_bound. nia.
Qed.

(** The two indices of an iteration of the shuffle are positions of the
    array. *)
Lemma shuffle_indices_in_range {A} (array : list A) (currentIndex : nat) (r : N) :
  S currentIndex ≤ length array →
  currentIndex < length array ∧ floorRandom r (S currentIndex) < length array.
Proof.
  intros Hle. split; [lia|].
  pose proof (floorRandom_lt r (S currentIndex)). lia.
Qed.

Lemma swap_Permutation {A} (array : list A) (i j : nat) : swap array i j ≡ₚ array.
Proof.
  unfold swap.
  destruct (array !! j) as [aj|] eqn:Hj; [|done].
  destruct (array !! i) as [ai|] eqn:Hi; [|done].
  by apply Permutation_insert_swap.
Qed.

Lemma swap_length {A} (array : list A) (i j : nat) : length (swap array i j) = length array.
Proof. apply Permutation_length, swap_Permutation. Qed.

(** Inside the bounds the swap is the exchange of the two elements. *)
Lemma swap_lookup {A} (array : list A) (i j : nat) :
  i < length array → j < length array →
  swap array i j !! i = array !! j ∧ swap array i j !! j = array !! i.
Proof.
  intros Hi Hj. unfold swap.
  destruct (lookup_lt_is_Some_2 array i Hi) as [ai Hai].
  destruct (lookup_lt_is_Some_2 array j Hj) as [aj Haj].
  rewrite Hai, Haj.
  destruct (decide (i = j)) as [->|Hne].
  - rewrite list_lookup_insert_eq by (by rewrite length_insert). naive_solver.
  - rewrite list_lookup_insert_ne by done.
    rewrite list_lookup_insert_eq by done.
    rewrite list_lookup_insert_eq by (by rewrite length_insert). done.
Qed.

Lemma shuffleLoop_Permutation {A} (currentIndex : nat) (random : RandomSource) (array : list A) :
  shuffleLoop currentIndex random array ≡ₚ array.
Proof.
  revert random array.
  induction currentIndex as [|ci IH]; intros random array; simpl; [done|].
  rewrite IH. apply swap_Permutation.
Qed.

(** C9: the shuffle returns a permutation of its argument, of the same
    length, whatever the random draws are; the empty array gives the empty
    array. *)
Theorem shuffleArray_Permutation {A} (random : RandomSource) (D : list A) :
  shuffleArray random D ≡ₚ D
  ∧ length (shuffleArray random D) = length D
  ∧ shuffleArray random (@nil A) = [].
Proof.
  split; [apply shuffleLoop_Permutation|].
  split; [apply Permutation_length, shuffleLoop_Permutation|done].
Qed.

(** ** The timer effects *)

Lemma tickEffect_deps (s s' : LessonSt) : tickDeps s = tickDeps s' → tickEffect s = tickEffect s'.
Proof. unfold tickDeps, tickEffect. intros [= -> -> ->]. done. Qed.

Lemma feedbackEffect_deps (s s' : LessonSt) :
  feedbackDeps s = feedbackDeps s' → feedbackEffect s = feedbackEffect s'.
Proof. unfold feedbackDeps, feedbackEffect. intros [= -> -> ->]. done. Qed.

Lemma tickEffect_summary_request (s : LessonSt) :
  (tickEffect s).2 = true → lessonState s = Active ∧ timeLeft s = 0%Z.
Proof.
  unfold tickEffect. repeat case_bool_decide; destruct (isPaused s); simpl; naive_solver.
Qed.

Lemma tickEffect_not_active (s : LessonSt) : lessonState s ≠ Active → tickEffect s = (false, false).
Proof.
  intros Hs. unfold tickEffect. repeat case_bool_decide; simpl; naive_solver.
Qed.

(** The state after a commit, and its timers. *)
Lemma commit_spec (c : Component) (next : LessonSt) :
  timersAgree c →
  state (commit c next) = (if (tickEffect next).2 then setLessonState Summary next else next)
  ∧ timersAgree (commit c next).
Proof.
  intros (Htick & Hfb & Hsettled).
  assert (Hfb1 : (if bool_decide (feedbackDeps (state c) = feedbackDeps next)
                  then feedbackTimer c else feedbackEffect next) = feedbackEffect next).
  { case_bool_decide as Hd; [|done]. rewrite Hfb. by apply feedbackEffect_deps. }
  unfold commit, runEffects. rewrite Hfb1.
  destruct (decide (tickDeps (state c) = tickDeps next)) as [Hdeps|Hdeps];
    [rewrite (bool_decide_eq_true_2 _ Hdeps)|rewrite (bool_decide_eq_false_2 _ Hdeps)].
  - apply tickEffect_deps in Hdeps. rewrite <- Hdeps, Hsettled. simpl.
    split; [done|]. unfold timersAgree. simpl. by rewrite <- Hdeps.
  - destruct (tickEffect next) as [tick1 toSummary] eqn:Hnext. simpl.
    destruct toSummary; simpl.
    + assert (Hact : lessonState next = Active)
        by (apply tickEffect_summary_request; by rewrite Hnext).
      rewrite bool_decide_eq_false_2
        by (unfold tickDeps; simpl; rewrite Hact; congruence).
      rewrite bool_decide_eq_true_2 by done.
      rewrite (tickEffect_not_active (setLessonState Summary next)) by done. simpl.
      split; [done|]. unfold timersAgree. simpl.
      rewrite (tickEffect_not_active (setLessonState Summary next)) by done. done.
    + split; [done|]. unfold timersAgree. simpl. by rewrite Hnext.
Qed.

(** Without any assumption, a commit renders [next], or [next] moved to the
    summary by the tick effect. *)
Lemma commit_state_cases (c : Component) (next : LessonSt) :
  state (commit c next) = next
  ∨ (state (commit c next) = setLessonState Summary next
     ∧ lessonState next = Active ∧ timeLeft next = 0%Z).
Proof.
  unfold commit.
  destruct (runEffects (state c) next (tickTimer c) (feedbackTimer c))
    as [[tick1 fb1] toSummary] eqn:Hrun.
  destruct toSummary; [|by left].
  right. destruct (runEffects next _ tick1 fb1) as [[tick2 fb2] ?]. simpl.
  split; [done|]. apply tickEffect_summary_request.
  unfold runEffects in Hrun. case_bool_decide; [done|].
  destruct (tickEffect next). by simplify_eq.
Qed.

(** Committing the state that is already rendered changes nothing. *)
Lemma commit_same (c : Component) : commit c (state c) = c.
Proof.
  unfold commit, runEffects. rewrite !bool_decide_eq_true_2 by done. by destruct c.
Qed.

(** ** Invariants *)

Lemma sessionInv_setLessonState (v : LessonState) (s : LessonSt) :
  v ≠ Active → sessionInv s → sessionInv (setLessonState v s).
Proof. intros Hv [? ? ? ? ? ?]. split; simpl; done. Qed.

Lemma sessionInv_settle (next : LessonSt) :
  sessionInv next →
  sessionInv (if (tickEffect next).2 then setLessonState Summary next else next).
Proof.
  intros Hinv. destruct (tickEffect next).2; [|done].
  by apply sessionInv_setLessonState.
Qed.

Lemma findWord_false (w : jsstring) (prev : list FlashcardData) :
  findWord w prev = false → w ∉ map word prev.
Proof.
  unfold findWord. rewrite bool_decide_eq_false, Exists_exists.
  intros Hno Hin. apply list_elem_of_fmap in Hin as (c & -> & Hc). naive_solver.
Qed.

Lemma findWord_true (w : jsstring) (prev : list FlashcardData) :
  findWord w prev = true → w ∈ map word prev.
Proof.
  unfold findWord. rewrite bool_decide_eq_true, Exists_exists.
  intros (c & Hc & <-). apply list_elem_of_fmap. eauto.
Qed.

Lemma addIncorrect_NoDup (card : FlashcardData) (prev : list FlashcardData) :
  NoDup (map word prev) → NoDup (map word (addIncorrect card prev)).
Proof.
  intros Hnd. unfold addIncorrect.
  destruct (findWord (word card) prev) eqn:Hfind; [done|].
  apply findWord_false in Hfind.
  rewrite map_app. simpl. apply NoDup_app. split; [done|]. split.
  - intros w Hw ->%list_elem_of_singleton. done.
  - apply NoDup_singleton.
Qed.

Lemma addIncorrect_elem (card : FlashcardData) (prev : list FlashcardData) :
  word card ∈ map word (addIncorrect card prev).
Proof.
  unfold addIncorrect. destruct (findWord (word card) prev) eqn:Hfind.
  - by apply findWord_true.
  - rewrite map_app. simpl. apply elem_of_app. right. by apply list_elem_of_singleton.
Qed.

Lemma addIncorrect_prefix (card : FlashcardData) (prev : list FlashcardData) :
  prev `prefix_of` addIncorrect card prev.
Proof.
  unfold addIncorrect. destruct (findWord (word card) prev); [done|].
  by apply prefix_app_r.
Qed.

Lemma filter_word_absent (w : jsstring) (l : list FlashcardData) :
  w ∉ map word l → filter (λ c, word c = w) l = [].
Proof.
  induction l as [|c l IH]; simpl; intros Hnot; [done|].
  apply not_elem_of_cons in Hnot as [Hne Hnot].
  rewrite filter_cons_False by congruence. by apply IH.
Qed.

(** A word on a list without repeated words is the word of one item. *)
Lemma NoDup_words_once (w : jsstring) (l : list FlashcardData) :
  NoDup (map word l) → w ∈ map word l →
  length (filter (λ c, word c = w) l) = 1.
Proof.
  induction l as [|c l IH]; simpl; intros Hnd Hin.
  - by apply elem_of_nil in Hin.
  - apply NoDup_cons in Hnd as [Hc Hnd].
    destruct (decide (word c = w)) as [Heq|Hne].
    + rewrite filter_cons_True by done. simpl.
      rewrite filter_word_absent by congruence. done.
    + rewrite filter_cons_False by done.
      apply elem_of_cons in Hin as [?|Hin]; [congruence|]. by apply IH.
Qed.

Lemma shuffleArray_length {A} (random : RandomSource) (array : list A) :
  length (shuffleArray random array) = length array.
Proof. apply Permutation_length, shuffleLoop_Permutation. Qed.

Lemma handleStartLesson_inv (flashcards : list FlashcardData) (random : RandomSource)
    (s : LessonSt) :
  sessionInv s → sessionInv (handleStartLesson flashcards random s).
Proof.
  intros Hinv. unfold handleStartLesson. case_bool_decide as Hlen; [done|].
  assert (Hdeck : shuffleArray random flashcards ≠ []).
  { intros Hnil. apply (f_equal length) in Hnil.
    rewrite shuffleArray_length in Hnil. done. }
  split; simpl; try done.
  - exists 0. split; [done|]. intros _. rewrite shuffleArray_length. lia.
  - constructor.
Qed.

Lemma currentCardOf_defined (s : LessonSt) :
  sessionInv s → shuffledDeck s ≠ [] → is_Some (currentCardOf s).
Proof.
  intros Hinv Hdeck. destruct (inv_index s Hinv) as (n & Hidx & Hn).
  unfold currentCardOf. rewrite Hidx. apply lookup_lt_is_Some_2. by apply Hn.
Qed.

Lemma handleCheckAnswer_inv `{Host} (s s' : LessonSt) :
  sessionInv s → handleCheckAnswer s = Some s' → sessionInv s'.
Proof.
  intros Hinv. unfold handleCheckAnswer.
  destruct (_ || _); [by intros [= <-]|].
  destruct (currentCardOf s) as [card|] eqn:Hcard; [|done].
  intros [= <-]. destruct Hinv as [? ? Hfb ? ? ?].
  assert (Hdeck : shuffledDeck s ≠ []).
  { intros Hnil. unfold currentCardOf in Hcard. rewrite Hnil in Hcard.
    destruct (currentCardIndex s); by simplify_eq. }
  split; simpl; try done.
  - destruct (isCorrect _ _ _); [done|]. by apply addIncorrect_NoDup.
  - destruct (isCorrect _ _ _); lia.
Qed.

Lemma nextIndex_valid (n len : nat) :
  0 < len → ∃ m, nextIndex (Idx n) len = Idx m ∧ m < len.
Proof.
  intros Hlen. destruct len as [|len']; [lia|].
  eexists. split; [done|]. apply Nat.mod_upper_bound. lia.
Qed.

Lemma feedbackCallback_inv (mode : LessonMode) (r : N) (s : LessonSt) :
  sessionInv s → feedback s ≠ FbNone →
  sessionInv (feedbackCallback (length (shuffledDeck s)) mode r s).
Proof.
  intros [? ? Hfb (n & Hidx & Hn) ? ?] Hpending.
  specialize (Hfb Hpending).
  split; simpl; try done.
  rewrite Hidx.
  destruct (nextIndex_valid n (length (shuffledDeck s))) as (m & -> & Hm).
  { destruct (shuffledDeck s); [done|simpl; lia]. }
  eauto.
Qed.

Lemma tickTimer_running (c : Component) :
  timersAgree c → tickTimer c = true →
  lessonState (state c) = Active ∧ isPaused (state c) = false ∧ (0 < timeLeft (state c))%Z.
Proof.
  intros (-> & _ & _). unfold tickEffect.
  repeat case_bool_decide; destruct (isPaused (state c)); simpl; naive_solver.
Qed.

Lemma feedbackTimer_pending (c : Component) (deckLength : nat) (mode : LessonMode) :
  timersAgree c → feedbackTimer c = Some (deckLength, mode) →
  feedback (state c) ≠ FbNone ∧ deckLength = length (shuffledDeck (state c))
  ∧ mode = lessonMode (state c).
Proof.
  intros (_ & -> & _). unfold feedbackEffect. case_bool_decide; naive_solver.
Qed.

Lemma mount_invariant : invariant mount.
Proof.
  split.
  - by vm_compute.
  - split; simpl; try done.
    + exists 0. done.
    + constructor.
Qed.

Lemma step_invariant `{Host} (e : Event) (c c' : Component) :
  invariant c → step e c = Some c' → invariant c'.
Proof.
  intros [Htimers Hinv] Hstep.
  assert (Hcommit : ∀ next, sessionInv next → invariant (commit c next)).
  { intros next Hnext. destruct (commit_spec c next Htimers) as [Hst Hag].
    split; [done|]. rewrite Hst. by apply sessionInv_settle. }
  destruct e; simpl in Hstep.
  - case_bool_decide; simplify_eq. apply Hcommit.
    destruct Hinv. split; done.
  - destruct (lessonState (state c)) eqn:Hphase; [|done|];
      [case_bool_decide; simplify_eq|simplify_eq];
      by apply Hcommit, handleStartLesson_inv.
  - case_bool_decide; simplify_eq. apply Hcommit.
    destruct Hinv. split; done.
  - case_bool_decide; simplify_eq. apply Hcommit.
    destruct (handleCheckAnswer (state c)) as [s'|] eqn:Hcheck; simpl; [|done].
    by eapply handleCheckAnswer_inv.
  - case_bool_decide; simplify_eq. apply Hcommit.
    destruct Hinv. split; done.
  - destruct (_ && _); simplify_eq. apply Hcommit.
    destruct Hinv. split; done.
  - case_bool_decide; simplify_eq. by apply Hcommit, sessionInv_setLessonState.
  - case_bool_decide; simplify_eq. by apply Hcommit, sessionInv_setLessonState.
  - destruct (tickTimer c) eqn:Htick; simplify_eq. apply Hcommit.
    destruct (tickTimer_running c Htimers Htick) as (_ & _ & Hpos).
    destruct Hinv as [Htime ? ? ? ? ?]. split; simpl; try done.
    unfold LESSON_DURATION in *. lia.
  - destruct (feedbackTimer c) as [[deckLength mode]|] eqn:Hfb; simplify_eq.
    destruct (feedbackTimer_pending c _ _ Htimers Hfb) as (Hpending & -> & ->).
    by apply Hcommit, feedbackCallback_inv.
Qed.

Lemma reachable_invariant `{Host} (c : Component) : reachable c → invariant c.
Proof.
  induction 1 as [|e c c' _ IH Hstep]; [apply mount_invariant|].
  by eapply step_invariant.
Qed.

Lemma run_reachable `{Host} (es : list Event) (c c' : Component) :
  reachable c → run es c = Some c' → reachable c'.
Proof.
  revert c. induction es as [|e es IH]; simpl; intros c Hc Hrun.
  - by simplify_eq.
  - destruct (step e c) as [c1|] eqn:Hstep; [|done].
    eapply IH; [|done]. by eapply reachable_step.
Qed.

(** ** Starting a lesson *)

(** C8: on a deck that is not empty the start handler gives an active
    session with the score, the number of answers and the review list
    reset, not paused, at index 0, with 300 seconds left; the deck is a
    permutation of the flashcards and the tick interval runs. *)
Theorem start_resets_session `{Host} (c : Component) (D : list FlashcardData)
    (random : RandomSource) :
  D ≠ [] → lessonState (state c) ≠ Active →
  ∃ c', step (StartLesson D random) c = Some c'
    ∧ state c' = handleStartLesson D random (state c)
    ∧ lessonState (state c') = Active
    ∧ score (state c') = 0
    ∧ cardsAnswered (state c') = 0
    ∧ incorrectAnswers (state c') = []
    ∧ isPaused (state c') = false
    ∧ currentCardIndex (state c') = Idx 0
    ∧ timeLeft (state c') = 300%Z
    ∧ lessonMode (state c') = lessonMode (state c)
    ∧ shuffledDeck (state c') ≡ₚ D
    ∧ tickTimer c' = true.
Proof.
  intros HD Hphase.
  assert (Hlen : 0 < length D) by (destruct D; [done|simpl; lia]).
  assert (Hstep : step (StartLesson D random) c
                  = Some (commit c (handleStartLesson D random (state c)))).
  { simpl. destruct (lessonState (state c)); [|done|done].
    by rewrite bool_decide_eq_true_2. }
  eexists. split; [exact Hstep|].
  set (next := handleStartLesson D random (state c)).
  assert (Hnext : next = handleStartLesson D random (state c)) by done.
  unfold handleStartLesson in Hnext.
  rewrite bool_decide_eq_false_2 in Hnext by lia.
  assert (Hst : state (commit c next) = next).
  { destruct (commit_state_cases c next) as [?|(_ & _ & Hzero)]; [done|].
    rewrite Hnext in Hzero. done. }
  rewrite Hst. split; [done|].
  assert (Htick : tickTimer (commit c next) = true).
  { unfold commit, runEffects.
    rewrite (bool_decide_eq_false_2 (tickDeps (state c) = tickDeps next)).
    - rewrite Hnext. unfold tickEffect. simpl. by destruct (bool_decide _).
    - rewrite Hnext. unfold tickDeps. simpl. congruence. }
  rewrite Htick, Hnext. simpl.
  repeat split; try done. apply shuffleLoop_Permutation.
Qed.

(** The start of a lesson on the sample deck, from the mounted component. *)
Lemma start_resets_session_witness :
  sampleDeck ≠ [] ∧ lessonState (state mount) ≠ Active
  ∧ ∃ c', @step pinyinHost (StartLesson sampleDeck zeros) mount = Some c'
    ∧ state c' = handleStartLesson sampleDeck zeros (state mount)
    ∧ lessonState (state c') = Active
    ∧ score (state c') = 0
    ∧ cardsAnswered (state c') = 0
    ∧ incorrectAnswers (state c') = []
    ∧ isPaused (state c') = false
    ∧ currentCardIndex (state c') = Idx 0
    ∧ timeLeft (state c') = 300%Z
    ∧ lessonMode (state c') = lessonMode (state mount)
    ∧ shuffledDeck (state c') ≡ₚ sampleDeck
    ∧ tickTimer c' = true.
Proof.
  split; [done|]. split; [done|].
  apply (@start_resets_session pinyinHost mount sampleDeck zeros); done.
Defined.

(** An empty deck starts nothing. *)
Lemma start_on_empty_deck (random : RandomSource) (s : LessonSt) :
  handleStartLesson [] random s = s.
Proof. done. Qed.

(** ** Pause and resume *)

(** C10: in an active lesson the pause button and the resume button change
    the paused flag and nothing else of the session. *)
Theorem pause_resume_frame `{Host} (c : Component) :
  lessonState (state c) = Active →
  (∃ c', step TogglePause c = Some c'
     ∧ isPaused (state c') = negb (isPaused (state c))
     ∧ sameSession (state c) (state c')
     ∧ ((0 < timeLeft (state c))%Z → lessonState (state c') = Active))
  ∧ (isPaused (state c) = true →
     ∃ c', step Resume c = Some c'
       ∧ isPaused (state c') = false
       ∧ sameSession (state c) (state c')
       ∧ ((0 < timeLeft (state c))%Z → lessonState (state c') = Active)).
Proof.
  intros Hactive.
  assert (Hframe : ∀ v, isPaused (state (commit c (setIsPaused v (state c)))) = v
            ∧ sameSession (state c) (state (commit c (setIsPaused v (state c))))
            ∧ ((0 < timeLeft (state c))%Z
               → lessonState (state (commit c (setIsPaused v (state c)))) = Active)).
  { intros v.
    destruct (commit_state_cases c (setIsPaused v (state c))) as [->|(-> & _ & Hzero)].
    - unfold sameSession. simpl. repeat split; done.
    - unfold sameSession. simpl in *. repeat split; try done. lia. }
  split.
  - eexists. split; [simpl; by rewrite bool_decide_eq_true_2|]. apply Hframe.
  - intros Hpaused. eexists. split.
    + simpl. by rewrite bool_decide_eq_true_2, Hpaused.
    + apply Hframe.
Qed.

(** Pause and resume in the lesson that is paused while feedback is shown. *)
Lemma pause_resume_frame_witness :
  lessonState (state pausedWithFeedback) = Active
  ∧ (∃ c', @step pinyinHost TogglePause pausedWithFeedback = Some c'
     ∧ isPaused (state c') = negb (isPaused (state pausedWithFeedback))
     ∧ sameSession (state pausedWithFeedback) (state c')
     ∧ ((0 < timeLeft (state pausedWithFeedback))%Z → lessonState (state c') = Active))
  ∧ (isPaused (state pausedWithFeedback) = true →
     ∃ c', @step pinyinHost Resume pausedWithFeedback = Some c'
       ∧ isPaused (state c') = false
       ∧ sameSession (state pausedWithFeedback) (state c')
       ∧ ((0 < timeLeft (state pausedWithFeedback))%Z → lessonState (state c') = Active)).
Proof.
  split; [by vm_compute|].
  apply (@pause_resume_frame pinyinHost pausedWithFeedback). by vm_compute.
Defined.

(** While the lesson is paused the tick interval is cleared. *)
Lemma paused_no_tick `{Host} (c : Component) :
  reachable c → isPaused (state c) = true → tickTimer c = false ∧ step Tick c = None.
Proof.
  intros Hc Hpaused. destruct (reachable_invariant c Hc) as [Htimers _].
  destruct (tickTimer c) eqn:Htick.
  - destruct (tickTimer_running c Htimers Htick) as (_ & ? & _). congruence.
  - split; [done|]. simpl. by rewrite Htick.
Qed.

(** The feedback timeout is pending whenever feedback is shown, paused or
    not, in whatever view; when it fires it clears the feedback and the
    input and moves to the next card. *)
Lemma feedback_timeout_fires `{Host} (c : Component) (r : N) :
  reachable c → feedback (state c) ≠ FbNone →
  ∃ c', step (FeedbackTimeout r) c = Some c'
    ∧ state c' = feedbackCallback (length (shuffledDeck (state c))) (lessonMode (state c)) r (state c)
    ∧ feedbackTimer c' = None.
Proof.
  intros Hc Hpending. destruct (reachable_invariant c Hc) as [Htimers Hinv].
  assert (Hfb : feedbackTimer c = Some (length (shuffledDeck (state c)), lessonMode (state c))).
  { destruct Htimers as (_ & -> & _). unfold feedbackEffect. by rewrite bool_decide_eq_true_2. }
  simpl. rewrite Hfb. eexists. split; [done|].
  destruct (commit_spec c (feedbackCallback (length (shuffledDeck (state c)))
              (lessonMode (state c)) r (state c)) Htimers) as [Hst (_ & Hfb' & _)].
  assert (Hsettled : (tickEffect (feedbackCallback (length (shuffledDeck (state c)))
              (lessonMode (state c)) r (state c))).2 = false).
  { rewrite (tickEffect_deps _ (state c)) by done. by destruct Htimers as (_ & _ & ?). }
  rewrite Hsettled in Hst. split; [done|].
  rewrite Hfb', Hst. done.
Qed.

(** ** Checking an answer *)

Lemma findWord_spec (w : jsstring) (prev : list FlashcardData) :
  findWord w prev = bool_decide (w ∈ map word prev).
Proof.
  destruct (findWord w prev) eqn:Hfind; symmetry.
  - apply bool_decide_eq_true_2. by apply findWord_true.
  - apply bool_decide_eq_false_2. by apply findWord_false.
Qed.

(** A blank input, or an answer given while feedback is shown, is ignored
    by the handler. *)
Lemma handleCheckAnswer_ignored `{Host} (s : LessonSt) :
  trim (userInput s) = [] ∨ feedback s ≠ FbNone → handleCheckAnswer s = Some s.
Proof.
  intros Hguard. unfold handleCheckAnswer.
  destruct Hguard as [Hblank|Hfb].
  - by rewrite (bool_decide_eq_true_2 _ Hblank).
  - rewrite (bool_decide_eq_true_2 _ Hfb). by rewrite orb_true_r.
Qed.

Lemma handleCheckAnswer_accepted `{Host} (s : LessonSt) (card : FlashcardData) :
  trim (userInput s) ≠ [] → feedback s = FbNone → currentCardOf s = Some card →
  ∃ s', handleCheckAnswer s = Some s'
    ∧ tickDeps s' = tickDeps s
    ∧ feedback s' = (if isCorrect (currentTurnMode s) card (userInput s)
                     then FbCorrect else FbIncorrect)
    ∧ cardsAnswered s' = cardsAnswered s + 1
    ∧ score s' = score s + (if isCorrect (currentTurnMode s) card (userInput s) then 1 else 0)
    ∧ incorrectAnswers s' =
        (if isCorrect (currentTurnMode s) card (userInput s) then incorrectAnswers s
         else addIncorrect card (incorrectAnswers s)).
Proof.
  intros Hinput Hfb Hcard. unfold handleCheckAnswer.
  rewrite (bool_decide_eq_false_2 _ Hinput).
  rewrite bool_decide_eq_false_2 by (rewrite Hfb; naive_solver).
  rewrite Hcard. simpl. eexists. split; [done|]. simpl.
  destruct (isCorrect _ _ _); repeat split; try done; lia.
Qed.

(** In a reachable component the check of an answer commits the state that
    the handler computes: the tick effect has nothing to add. *)
Lemma step_CheckAnswer `{Host} (c : Component) (s' : LessonSt) :
  reachable c → lessonState (state c) = Active →
  handleCheckAnswer (state c) = Some s' → tickDeps s' = tickDeps (state c) →
  ∃ c', step CheckAnswer c = Some c' ∧ state c' = s' ∧ reachable c'.
Proof.
  intros Hc Hactive Hcheck Hdeps.
  assert (Hstep : step CheckAnswer c = Some (commit c s')).
  { simpl. by rewrite bool_decide_eq_true_2, Hcheck. }
  eexists. split; [exact Hstep|].
  split; [|by eapply reachable_step].
  destruct (reachable_invariant c Hc) as [Htimers _].
  destruct (commit_spec c s' Htimers) as [-> _].
  rewrite (tickEffect_deps _ _ Hdeps). by destruct Htimers as (_ & _ & ->).
Qed.

Lemma reachable_current_card `{Host} (c : Component) :
  reachable c → lessonState (state c) = Active → is_Some (currentCardOf (state c)).
Proof.
  intros Hc Hactive. destruct (reachable_invariant c Hc) as [_ Hinv].
  apply currentCardOf_defined; [done|]. by apply (inv_active_deck _ Hinv).
Qed.

(** C5: an accepted answer adds one to the number of answers, adds one to
    the score exactly when it is correct, and when it is not, appends the
    current card to the review list unless a card with the same word is
    there already.  The review list never holds a word twice, holds the
    word of a missed card exactly once, and grows at its end only. *)
Theorem accepted_answer_is_scored `{Host} (c : Component) :
  reachable c → lessonState (state c) = Active →
  feedback (state c) = FbNone → trim (userInput (state c)) ≠ [] →
  ∃ card c',
    currentCardOf (state c) = Some card
    ∧ step CheckAnswer c = Some c'
    ∧ cardsAnswered (state c') = cardsAnswered (state c) + 1
    ∧ score (state c')
      = score (state c)
        + (if isCorrect (currentTurnMode (state c)) card (userInput (state c)) then 1 else 0)
    ∧ incorrectAnswers (state c')
      = (if isCorrect (currentTurnMode (state c)) card (userInput (state c))
         then incorrectAnswers (state c)
         else if bool_decide (word card ∈ map word (incorrectAnswers (state c)))
              then incorrectAnswers (state c)
              else incorrectAnswers (state c) ++ [card])
    ∧ NoDup (map word (incorrectAnswers (state c')))
    ∧ (isCorrect (currentTurnMode (state c)) card (userInput (state c)) = false →
       length (filter (λ x, word x = word card) (incorrectAnswers (state c'))) = 1)
    ∧ incorrectAnswers (state c) `prefix_of` incorrectAnswers (state c').
Proof.
  intros Hc Hactive Hfb Hinput.
  destruct (reachable_current_card c Hc Hactive) as [card Hcard].
  destruct (handleCheckAnswer_accepted _ card Hinput Hfb Hcard)
    as (s' & Hcheck & Hdeps & _ & Hturns & Hscore & Hmissed).
  destruct (step_CheckAnswer c s' Hc Hactive Hcheck Hdeps) as (c' & Hstep & Hst & Hc').
  exists card, c'. split; [done|]. split; [done|].
  destruct (reachable_invariant c' Hc') as [_ Hinv'].
  pose proof (inv_missed _ Hinv') as Hnd. rewrite Hst in *.
  split; [done|]. split; [done|].
  split; [|split; [done|split]].
  - rewrite Hmissed. unfold addIncorrect. by rewrite findWord_spec.
  - intros Hwrong. apply NoDup_words_once; [done|].
    rewrite Hmissed, Hwrong. apply addIncorrect_elem.
  - rewrite Hmissed. destruct (isCorrect _ _ _); [done|]. apply addIncorrect_prefix.
Qed.

(** Between two starts the review list only grows at its end. *)
Lemma commit_incorrectAnswers (c : Component) (next : LessonSt) :
  incorrectAnswers (state (commit c next)) = incorrectAnswers next.
Proof. by destruct (commit_state_cases c next) as [->|(-> & _)]. Qed.

Lemma step_missed_prefix `{Host} (e : Event) (c c' : Component) :
  step e c = Some c' → (∀ D random, e ≠ StartLesson D random) →
  incorrectAnswers (state c) `prefix_of` incorrectAnswers (state c').
Proof.
  intros Hstep Hnot.
  destruct e; simpl in Hstep;
    try (case_bool_decide; simplify_eq; by rewrite commit_incorrectAnswers).
  - by destruct (Hnot flashcards random).
  - case_bool_decide; simplify_eq. rewrite commit_incorrectAnswers.
    unfold handleCheckAnswer. destruct (_ || _); simpl; [done|].
    destruct (currentCardOf (state c)); simpl; [|done].
    destruct (isCorrect _ _ _); [done|]. apply addIncorrect_prefix.
  - destruct (_ && _); simplify_eq. by rewrite commit_incorrectAnswers.
  - destruct (tickTimer c); simplify_eq. by rewrite commit_incorrectAnswers.
  - destruct (feedbackTimer c) as [[? ?]|]; simplify_eq.
    by rewrite commit_incorrectAnswers.
Qed.

(** The check of the answer "x" typed for the first card of the sample lesson. *)
Lemma accepted_answer_is_scored_witness :
  @reachable pinyinHost typedAnswer ∧ lessonState (state typedAnswer) = Active
  ∧ feedback (state typedAnswer) = FbNone ∧ trim (userInput (state typedAnswer)) ≠ []
  ∧ ∃ card c',
    currentCardOf (state typedAnswer) = Some card
    ∧ @step pinyinHost CheckAnswer typedAnswer = Some c'
    ∧ cardsAnswered (state c') = cardsAnswered (state typedAnswer) + 1
    ∧ score (state c')
      = score (state typedAnswer)
        + (if @isCorrect pinyinHost (currentTurnMode (state typedAnswer)) card
                (userInput (state typedAnswer)) then 1 else 0)
    ∧ incorrectAnswers (state c')
      = (if @isCorrect pinyinHost (currentTurnMode (state typedAnswer)) card
              (userInput (state typedAnswer))
         then incorrectAnswers (state typedAnswer)
         else if bool_decide (word card ∈ map word (incorrectAnswers (state typedAnswer)))
              then incorrectAnswers (state typedAnswer)
              else incorrectAnswers (state typedAnswer) ++ [card])
    ∧ NoDup (map word (incorrectAnswers (state c')))
    ∧ (@isCorrect pinyinHost (currentTurnMode (state typedAnswer)) card
          (userInput (state typedAnswer)) = false →
       length (filter (λ x, word x = word card) (incorrectAnswers (state c'))) = 1)
    ∧ incorrectAnswers (state typedAnswer) `prefix_of` incorrectAnswers (state c').
Proof.
  assert (Hreach : @reachable pinyinHost typedAnswer).
  { apply (@run_reachable pinyinHost typing mount); [constructor|]. by vm_compute. }
  split; [done|]. split; [by vm_compute|]. split; [by vm_compute|].
  split; [by vm_compute|].
  apply (@accepted_answer_is_scored pinyinHost typedAnswer); by vm_compute.
Defined.

(** C6: an answer submitted while feedback is shown changes nothing; of two
    submissions in a row the first one is scored, the second one leaves the
    component as it is. *)
Theorem duplicate_submission_ignored `{Host} (c : Component) :
  reachable c → lessonState (state c) = Active →
  (feedback (state c) ≠ FbNone → step CheckAnswer c = Some c)
  ∧ (feedback (state c) = FbNone → trim (userInput (state c)) ≠ [] →
     ∃ c1, step CheckAnswer c = Some c1
       ∧ feedback (state c1) ≠ FbNone
       ∧ step CheckAnswer c1 = Some c1
       ∧ cardsAnswered (state c1) = cardsAnswered (state c) + 1
       ∧ score (state c) ≤ score (state c1) ≤ score (state c) + 1).
Proof.
  intros Hc Hactive.
  assert (Hdup : ∀ d, lessonState (state d) = Active → feedback (state d) ≠ FbNone →
                      step CheckAnswer d = Some d).
  { intros d Hd Hfb. simpl. rewrite bool_decide_eq_true_2 by done.
    rewrite handleCheckAnswer_ignored by (by right). simpl. by rewrite commit_same. }
  split; [by apply Hdup|].
  intros Hfb Hinput.
  destruct (reachable_current_card c Hc Hactive) as [card Hcard].
  destruct (handleCheckAnswer_accepted _ card Hinput Hfb Hcard)
    as (s' & Hcheck & Hdeps & Hfb' & Hturns & Hscore & _).
  destruct (step_CheckAnswer c s' Hc Hactive Hcheck Hdeps) as (c1 & Hstep & Hst & _).
  exists c1. rewrite Hst.
  assert (Hshown : feedback s' ≠ FbNone) by (rewrite Hfb'; by destruct (isCorrect _ _ _)).
  split; [done|]. split; [done|]. split.
  - apply Hdup; rewrite Hst; [|done].
    unfold tickDeps in Hdeps. injection Hdeps as Hphase _ _. by rewrite Hphase.
  - split; [done|]. rewrite Hscore. destruct (isCorrect _ _ _); lia.
Qed.

(** Two submissions in a row of the answer "x" in the sample lesson. *)
Lemma duplicate_submission_ignored_witness :
  @reachable pinyinHost typedAnswer ∧ lessonState (state typedAnswer) = Active
  ∧ (feedback (state typedAnswer) ≠ FbNone →
     @step pinyinHost CheckAnswer typedAnswer = Some typedAnswer)
  ∧ (feedback (state typedAnswer) = FbNone → trim (userInput (state typedAnswer)) ≠ [] →
     ∃ c1, @step pinyinHost CheckAnswer typedAnswer = Some c1
       ∧ feedback (state c1) ≠ FbNone
       ∧ @step pinyinHost CheckAnswer c1 = Some c1
       ∧ cardsAnswered (state c1) = cardsAnswered (state typedAnswer) + 1
       ∧ score (state typedAnswer) ≤ score (state c1) ≤ score (state typedAnswer) + 1).
Proof.
  assert (Hreach : @reachable pinyinHost typedAnswer).
  { apply (@run_reachable pinyinHost typing mount); [constructor|]. by vm_compute. }
  split; [done|]. split; [by vm_compute|].
  apply (@duplicate_submission_ignored pinyinHost typedAnswer); [done|by vm_compute].
Defined.

(** ** The two timers *)

(** C1: the learner answers and pauses while the feedback is shown.  The
    tick interval is cleared, so no tick can arrive; the feedback timeout
    is still pending, and when it fires under the pause it clears the
    feedback and the input and moves to the next card. *)
Theorem auto_advance_fires_while_paused :
  @run pinyinHost (typing ++ [CheckAnswer; TogglePause]) mount = Some pausedWithFeedback
  ∧ lessonState (state pausedWithFeedback) = Active
  ∧ isPaused (state pausedWithFeedback) = true
  ∧ feedback (state pausedWithFeedback) = FbIncorrect
  ∧ userInput (state pausedWithFeedback) = utf16 "x"
  ∧ currentCardIndex (state pausedWithFeedback) = Idx 0
  ∧ tickTimer pausedWithFeedback = false
  ∧ @step pinyinHost Tick pausedWithFeedback = None
  ∧ feedbackTimer pausedWithFeedback = Some (2, ModeHanziToPinyin)
  ∧ ∃ c', @step pinyinHost (FeedbackTimeout 0) pausedWithFeedback = Some c'
      ∧ lessonState (state c') = Active
      ∧ isPaused (state c') = true
      ∧ feedback (state c') = FbNone
      ∧ userInput (state c') = []
      ∧ currentCardIndex (state c') = Idx 1.
Proof.
  do 9 (split; [by vm_compute|]).
  eexists. split; [by vm_compute|]. by vm_compute.
Qed.

(** C3: the learner answers in the last second and the last tick moves the
    lesson to the summary, but the tick does not cancel the feedback
    timeout: it is still pending in the summary, and when it fires it
    clears the feedback and the input and advances the index. *)
Lemma expiry_does_not_cancel_auto_advance :
  @run pinyinHost lastSecond mount = Some answeredAtLastSecond
  ∧ feedbackTimer answeredAtLastSecond = Some (2, ModeHanziToPinyin)
  ∧ timeLeft (state answeredAtLastSecond) = 1%Z
  ∧ @step pinyinHost Tick answeredAtLastSecond = Some expired
  ∧ timeLeft (state expired) = 0%Z
  ∧ lessonState (state expired) = Summary
  ∧ feedbackTimer expired = Some (2, ModeHanziToPinyin)
  ∧ feedback (state expired) = FbIncorrect
  ∧ userInput (state expired) = utf16 "x"
  ∧ currentCardIndex (state expired) = Idx 0
  ∧ ∃ c2, @step pinyinHost (FeedbackTimeout 0) expired = Some c2
      ∧ feedback (state c2) = FbNone
      ∧ userInput (state c2) = []
      ∧ currentCardIndex (state c2) = Idx 1.
Proof.
  do 10 (split; [by vm_compute|]).
  eexists. split; [by vm_compute|]. by vm_compute.
Qed.

(** The run above in general.  When a tick takes the time to 0 while
    feedback is shown, the lesson moves to the summary at once and what was
    scored stands; nothing cancels the feedback timeout: it stays pending,
    and when it fires it clears the feedback and the input and advances the
    index, and leaves the summary, the score, the number of answers, the
    review list and the time as they are. *)
Theorem expiry_keeps_auto_advance_pending `{Host} (c c1 : Component) :
  reachable c → feedback (state c) ≠ FbNone →
  step Tick c = Some c1 → timeLeft (state c1) = 0%Z →
  lessonState (state c1) = Summary
  ∧ score (state c1) = score (state c)
  ∧ cardsAnswered (state c1) = cardsAnswered (state c)
  ∧ incorrectAnswers (state c1) = incorrectAnswers (state c)
  ∧ feedback (state c1) = feedback (state c)
  ∧ tickTimer c1 = false
  ∧ feedbackTimer c1 = feedbackTimer c
  ∧ feedbackTimer c1 = Some (length (shuffledDeck (state c1)), lessonMode (state c1))
  ∧ ∀ r, ∃ c2, step (FeedbackTimeout r) c1 = Some c2
      ∧ feedback (state c2) = FbNone
      ∧ userInput (state c2) = []
      ∧ currentCardIndex (state c2)
        = nextIndex (currentCardIndex (state c1)) (length (shuffledDeck (state c1)))
      ∧ lessonState (state c2) = Summary
      ∧ score (state c2) = score (state c)
      ∧ cardsAnswered (state c2) = cardsAnswered (state c)
      ∧ incorrectAnswers (state c2) = incorrectAnswers (state c)
      ∧ timeLeft (state c2) = 0%Z
      ∧ feedbackTimer c2 = None.
Proof.
  intros Hc Hpending Hstep Hzero.
  assert (Hc1 : reachable c1) by (by eapply reachable_step).
  destruct (reachable_invariant c Hc) as [Htimers _].
  destruct (reachable_invariant c1 Hc1) as [Htimers1 _].
  simpl in Hstep. destruct (tickTimer c) eqn:Htick; [|done].
  injection Hstep as Hc1eq.
  destruct (tickTimer_running c Htimers Htick) as (Hactive & Hunpaused & Hpos).
  destruct (commit_spec c (tickCallback (state c)) Htimers) as [Hst _].
  rewrite Hc1eq in Hst.
  assert (Hone : timeLeft (state c) = 1%Z).
  { rewrite Hst in Hzero. destruct (tickEffect _).2; simpl in Hzero; lia. }
  assert (Hreq : (tickEffect (tickCallback (state c))).2 = true).
  { unfold tickEffect. simpl. rewrite Hactive, Hunpaused, Hone. done. }
  rewrite Hreq in Hst.
  assert (Hfb1 : feedbackTimer c1
                 = Some (length (shuffledDeck (state c1)), lessonMode (state c1))).
  { destruct Htimers1 as (_ & -> & _). unfold feedbackEffect.
    rewrite bool_decide_eq_true_2; [done|]. by rewrite Hst. }
  split; [by rewrite Hst|]. split; [by rewrite Hst|]. split; [by rewrite Hst|].
  split; [by rewrite Hst|]. split; [by rewrite Hst|].
  split. { destruct Htimers1 as (-> & _ & _). rewrite Hst. by rewrite tickEffect_not_active. }
  split. { rewrite Hfb1. destruct Htimers as (_ & -> & _). unfold feedbackEffect.
           rewrite bool_decide_eq_true_2 by done. by rewrite Hst. }
  split; [done|].
  intros r.
  destruct (feedback_timeout_fires c1 r Hc1) as (c2 & Hstep2 & Hst2 & Hfb2).
  { by rewrite Hst. }
  exists c2. split; [done|]. rewrite Hst2, Hst. simpl.
  repeat split; try done. lia.
Qed.

(** The last tick of the lesson in which the learner answered in the last
    second. *)
Lemma expiry_keeps_auto_advance_pending_witness :
  @reachable pinyinHost answeredAtLastSecond
  ∧ feedback (state answeredAtLastSecond) ≠ FbNone
  ∧ @step pinyinHost Tick answeredAtLastSecond = Some expired
  ∧ timeLeft (state expired) = 0%Z
  ∧ lessonState (state expired) = Summary
  ∧ score (state expired) = score (state answeredAtLastSecond)
  ∧ cardsAnswered (state expired) = cardsAnswered (state answeredAtLastSecond)
  ∧ incorrectAnswers (state expired) = incorrectAnswers (state answeredAtLastSecond)
  ∧ feedback (state expired) = feedback (state answeredAtLastSecond)
  ∧ tickTimer expired = false
  ∧ feedbackTimer expired = feedbackTimer answeredAtLastSecond
  ∧ feedbackTimer expired
    = Some (length (shuffledDeck (state expired)), lessonMode (state expired))
  ∧ ∀ r, ∃ c2, @step pinyinHost (FeedbackTimeout r) expired = Some c2
      ∧ feedback (state c2) = FbNone
      ∧ userInput (state c2) = []
      ∧ currentCardIndex (state c2)
        = nextIndex (currentCardIndex (state expired)) (length (shuffledDeck (state expired)))
      ∧ lessonState (state c2) = Summary
      ∧ score (state c2) = score (state answeredAtLastSecond)
      ∧ cardsAnswered (state c2) = cardsAnswered (state answeredAtLastSecond)
      ∧ incorrectAnswers (state c2) = incorrectAnswers (state answeredAtLastSecond)
      ∧ timeLeft (state c2) = 0%Z
      ∧ feedbackTimer c2 = None.
Proof.
  assert (Hreach : @reachable pinyinHost answeredAtLastSecond).
  { apply (@run_reachable pinyinHost lastSecond mount); [constructor|]. by vm_compute. }
  split; [done|]. split; [by vm_compute|]. split; [by vm_compute|].
  split; [by vm_compute|].
  apply (@expiry_keeps_auto_advance_pending pinyinHost answeredAtLastSecond expired);
    [done|by vm_compute..].
Defined.

(** * Further properties *)

(** ** White space and the answer check *)

Lemma trimStart_app (s t : jsstring) :
  trimStart (s ++ t) = match trimStart s with [] => trimStart t | r => r ++ t end.
Proof.
  induction s as [|c s IH]; simpl; [by destruct (trimStart t)|].
  by destruct (isWhiteSpace c).
Qed.

Lemma trimStart_nil_iff (s : jsstring) :
  trimStart s = [] ↔ Forall (λ c, isWhiteSpace c = true) s.
Proof.
  induction s as [|c s IH]; simpl; [by split|].
  destruct (isWhiteSpace c) eqn:Hc.
  - rewrite IH. split; [by constructor|by inversion 1].
  - split; [done|]. inversion 1; congruence.
Qed.

Lemma trimStart_head (s : jsstring) (c : N) (r : jsstring) :
  trimStart s = c :: r → isWhiteSpace c = false.
Proof.
  induction s as [|d s IH]; simpl; [done|].
  destruct (isWhiteSpace d) eqn:Hd; [done|]. by intros [= <- _].
Qed.

Lemma trimStart_idemp (s : jsstring) : trimStart (trimStart s) = trimStart s.
Proof.
  destruct (trimStart s) as [|c r] eqn:Hs; [done|].
  simpl. by rewrite (trimStart_head s c r Hs).
Qed.

(** The trimmed string is empty exactly when the string is made of white
    space only (the empty string among them). *)
Lemma trim_nil_iff (s : jsstring) :
  trim s = [] ↔ Forall (λ c, isWhiteSpace c = true) s.
Proof.
  unfold trim, trimEnd. rewrite <- trimStart_nil_iff. split.
  - intros Hnil. apply (f_equal (@rev N)) in Hnil. rewrite rev_involutive in Hnil.
    simpl in Hnil. apply trimStart_nil_iff in Hnil.
    destruct (trimStart s) as [|c r] eqn:Hs; [done|].
    apply trimStart_head in Hs.
    apply Forall_rev in Hnil. rewrite rev_involutive in Hnil.
    inversion Hnil; congruence.
  - by intros ->.
Qed.

Lemma trim_surrounded (ws s ws' : jsstring) :
  Forall (λ c, isWhiteSpace c = true) ws → Forall (λ c, isWhiteSpace c = true) ws' →
  trim (ws ++ s ++ ws') = trim s.
Proof.
  intros Hws Hws'. unfold trim, trimEnd. f_equal.
  rewrite trimStart_app. apply trimStart_nil_iff in Hws. rewrite Hws.
  rewrite trimStart_app.
  destruct (trimStart s) as [|c r] eqn:Hs.
  - apply trimStart_nil_iff in Hws'. by rewrite Hws'.
  - rewrite rev_app_distr, trimStart_app.
    apply Forall_rev, trimStart_nil_iff in Hws'. by rewrite Hws'.
Qed.

(** X1: white space around the typed answer never changes the verdict, in
    any direction and for any host; in particular the stored pronunciation
    and the stored word are accepted however they are padded. *)
Theorem isCorrect_padding `{Host} (mode : TurnMode) (card : FlashcardData)
    (ws input ws' : jsstring) :
  Forall (λ c, isWhiteSpace c = true) ws → Forall (λ c, isWhiteSpace c = true) ws' →
  isCorrect mode card (ws ++ input ++ ws') = isCorrect mode card input
  ∧ isCorrect HanziToPinyin card (ws ++ pinyin card ++ ws') = true
  ∧ isCorrect PinyinToHanzi card (ws ++ word card ++ ws') = true
  ∧ isCorrect TranslationToHanzi card (ws ++ word card ++ ws') = true.
Proof.
  intros Hws Hws'.
  assert (Hnorm : ∀ s, normalize (ws ++ s ++ ws') = normalize s).
  { intros s. unfold normalize. by rewrite trim_surrounded. }
  unfold isCorrect. rewrite !Hnorm. split; [done|].
  split; [|split; by apply bool_decide_eq_true_2].
  apply bool_decide_eq_true_2. unfold correctPinyinWithMarks. apply list_elem_of_here.
Qed.

(** The answer " nǐ hǎo " with a tab in front. *)
Lemma isCorrect_padding_witness :
  Forall (λ c, isWhiteSpace c = true) [9%N; 32%N]
  ∧ Forall (λ c, isWhiteSpace c = true) [32%N]
  ∧ @isCorrect pinyinHost HanziToPinyin ni_hao ([9%N; 32%N] ++ utf16 "nihao" ++ [32%N])
    = @isCorrect pinyinHost HanziToPinyin ni_hao (utf16 "nihao")
  ∧ @isCorrect pinyinHost HanziToPinyin ni_hao ([9%N; 32%N] ++ pinyin ni_hao ++ [32%N]) = true
  ∧ @isCorrect pinyinHost PinyinToHanzi ni_hao ([9%N; 32%N] ++ word ni_hao ++ [32%N]) = true
  ∧ @isCorrect pinyinHost TranslationToHanzi ni_hao ([9%N; 32%N] ++ word ni_hao ++ [32%N]) = true.
Proof.
  assert (H1 : Forall (λ c, isWhiteSpace c = true) [9%N; 32%N]) by (repeat constructor).
  assert (H2 : Forall (λ c, isWhiteSpace c = true) [32%N]) by (repeat constructor).
  split; [done|]. split; [done|].
  exact (@isCorrect_padding pinyinHost HanziToPinyin ni_hao _ (utf16 "nihao") _ H1 H2).
Defined.

(** ** The tone numbers *)

Lemma toneMap_get_Some (c base tone : N) :
  toneMap_get c = Some (base, tone) →
  toneMap_get base = None ∧ isAsciiLetter base = true ∧ isWhiteSpace base = false
  ∧ (1 ≤ tone ≤ 5)%N.
Proof.
  unfold toneMap_get at 1.
  let m := eval vm_compute in toneMap in change toneMap with m.
  simpl.
  repeat (destruct (_ =? _)%N;
          [intros [= <- <-]; by vm_compute|]).
  done.
Qed.

Lemma toneMap_get_digit (tone : N) : (1 ≤ tone ≤ 5)%N → toneMap_get (48 + tone)%N = None.
Proof.
  intros Htone.
  assert (Hcases : tone = 1%N ∨ tone = 2%N ∨ tone = 3%N ∨ tone = 4%N ∨ tone = 5%N) by lia.
  destruct Hcases as [->|[->|[->|[->| ->]]]]; by vm_compute.
Qed.

Lemma baseLetter_plain (c : N) : toneMap_get (baseLetter c) = None.
Proof.
  unfold baseLetter. destruct (toneMap_get c) as [[base tone]|] eqn:Hc; [|done].
  by apply toneMap_get_Some in Hc as (? & _).
Qed.

Lemma tonesOf_range (syllable : jsstring) (tone : N) :
  tone ∈ tonesOf syllable → (1 ≤ tone ≤ 5)%N.
Proof.
  unfold tonesOf. rewrite list_elem_of_omap. intros (c & _ & Hc).
  destruct (toneMap_get c) as [[base t]|] eqn:Hget; simplify_eq/=.
  by apply toneMap_get_Some in Hget as (_ & _ & _ & ?).
Qed.

Lemma rewriteSyllable_no_toned_vowel (syllable : jsstring) :
  Forall (λ c, toneMap_get c = None) (rewriteSyllable syllable).
Proof.
  rewrite rewriteSyllable_spec. apply Forall_app. split.
  - apply Forall_forall. intros c (d & -> & _)%list_elem_of_fmap. apply baseLetter_plain.
  - destruct (last (tonesOf syllable)) as [tone|] eqn:Hlast; [|constructor].
    repeat constructor. apply toneMap_get_digit, (tonesOf_range syllable).
    apply last_Some in Hlast as [l' ->]. apply elem_of_app. right. apply list_elem_of_here.
Qed.

Lemma baseLetter_no_white_space (c : N) :
  isWhiteSpace c = false → isWhiteSpace (baseLetter c) = false.
Proof.
  intros Hc. unfold baseLetter.
  destruct (toneMap_get c) as [[base tone]|] eqn:Hget; [|done].
  by apply toneMap_get_Some in Hget as (_ & _ & ? & _).
Qed.

Lemma toneDigit_no_white_space (tone : N) :
  (1 ≤ tone ≤ 5)%N → isWhiteSpace (48 + tone)%N = false.
Proof.
  intros Htone.
  assert (Hcases : tone = 1%N ∨ tone = 2%N ∨ tone = 3%N ∨ tone = 4%N ∨ tone = 5%N) by lia.
  destruct Hcases as [->|[->|[->|[->| ->]]]]; by vm_compute.
Qed.

(** X2: whatever the host, the answer is compared without any white space
    against forms that hold none: the normalised input, the normalised
    pronunciation and its numeric form are free of white space, so the
    space between the syllables of a stored pronunciation is never asked
    for. *)
Theorem accepted_forms_no_white_space `{Host} (card : FlashcardData) (input : jsstring) :
  Forall (λ c, isWhiteSpace c = false) (normalize input)
  ∧ Forall (λ c, isWhiteSpace c = false) (correctPinyinWithMarks card)
  ∧ Forall (λ c, isWhiteSpace c = false) (correctPinyinWithNumbers card).
Proof.
  assert (Hnorm : ∀ str, Forall (λ c, isWhiteSpace c = false) (normalize str)).
  { intros str. unfold normalize, removeWhiteSpace. apply Forall_forall.
    intros c Hc. by apply list_elem_of_filter in Hc as [? _]. }
  split; [done|]. split; [apply Hnorm|].
  unfold correctPinyinWithNumbers, pinyinToneMarksToNumbers.
  apply Forall_concat, Forall_fmap.
  eapply Forall_impl; [apply splitSyllables_Forall, (Hnorm (pinyin card))|].
  intros piece Hpiece. simpl. rewrite rewriteSyllable_spec. apply Forall_app. split.
  - apply Forall_fmap. eapply Forall_impl; [exact Hpiece|].
    intros c Hc. by apply baseLetter_no_white_space.
  - destruct (last (tonesOf piece)) as [tone|] eqn:Hlast; [|constructor].
    repeat constructor. apply toneDigit_no_white_space, (tonesOf_range piece).
    apply last_Some in Hlast as [l' ->]. apply elem_of_app. right. apply list_elem_of_here.
Qed.

(** X3: the numeric form holds no toned vowel and no [ü], and rewriting it
    again changes nothing. *)
Theorem pinyinToneMarksToNumbers_idemp (pinyin : jsstring) :
  Forall (λ c, toneMap_get c = None) (pinyinToneMarksToNumbers pinyin)
  ∧ pinyinToneMarksToNumbers (pinyinToneMarksToNumbers pinyin)
    = pinyinToneMarksToNumbers pinyin.
Proof.
  assert (Hplain : Forall (λ c, toneMap_get c = None) (pinyinToneMarksToNumbers pinyin)).
  { unfold pinyinToneMarksToNumbers. apply Forall_concat, Forall_fmap, Forall_forall.
    intros piece _. apply rewriteSyllable_no_toned_vowel. }
  split; [done|]. by apply pinyinToneMarksToNumbers_plain.
Qed.

(** X4: a piece is rewritten to its letters, every toned vowel replaced by
    its base letter, followed by one digit, the tone of its last toned
    vowel, when it has a toned vowel, and by nothing when it has none: the
    length grows by at most one whatever the number of toned vowels. *)
Theorem rewriteSyllable_shape (syllable : jsstring) :
  rewriteSyllable syllable
  = map baseLetter syllable
    ++ match last (tonesOf syllable) with
       | Some tone => [(0x30 + tone)%N]
       | None => []
       end
  ∧ length syllable ≤ length (rewriteSyllable syllable) ≤ length syllable + 1
  ∧ (length (rewriteSyllable syllable) = length syllable
     ↔ Forall (λ c, toneMap_get c = None) syllable).
Proof.
  rewrite rewriteSyllable_spec. unfold toneToString.
  split; [done|]. rewrite length_app, length_map.
  assert (Hnone : last (tonesOf syllable) = None ↔ Forall (λ c, toneMap_get c = None) syllable).
  { rewrite last_None. unfold tonesOf. induction syllable as [|c rest IH]; simpl.
    - split; [constructor|done].
    - destruct (toneMap_get c) as [[base tone]|] eqn:Hc; simpl.
      + split; [done|]. inversion 1; congruence.
      + rewrite IH. split; [by constructor|by inversion 1]. }
  destruct (last (tonesOf syllable)) as [tone|]; simpl.
  - split; [lia|]. split; [lia|]. intros Hplain. by apply Hnone in Hplain.
  - split; [lia|]. split; [intros _; by apply Hnone|lia].
Qed.

Lemma hasAdjacentLetters_cons (c : N) (p : jsstring) :
  hasAdjacentLetters (c :: p)
  = match p with [] => false | d :: _ => isAsciiLetter c && isAsciiLetter d end
    || hasAdjacentLetters p.
Proof. by destruct p. Qed.

Lemma splitSyllables_head (c : N) (s : jsstring) :
  ∃ p ps, splitSyllables (c :: s) = (c :: p) :: ps.
Proof.
  revert c. induction s as [|d s IH]; intros c; [by exists [], []|].
  change (splitSyllables (c :: d :: s))
    with (if isAsciiLetter c && isAsciiLetter d then [c] :: splitSyllables (d :: s)
          else match splitSyllables (d :: s) with
               | [] => [[c]]
               | p :: ps => (c :: p) :: ps
               end).
  destruct (isAsciiLetter c && isAsciiLetter d); [by eexists [], _|].
  destruct (IH d) as (p & ps & ->). by eexists _, _.
Qed.

(** X5: the split is lossless and cuts at every pair of adjacent ASCII
    letters: joining the pieces gives the string back, no piece of a
    string that is not empty is empty, and no piece holds two ASCII
    letters next to each other. *)
Theorem splitSyllables_pieces (s : jsstring) :
  concat (splitSyllables s) = s
  ∧ (s ≠ [] → Forall (λ piece, piece ≠ []) (splitSyllables s))
  ∧ Forall (λ piece, hasAdjacentLetters piece = false) (splitSyllables s).
Proof.
  split; [apply concat_splitSyllables|].
  induction s as [|c s IH]; [split; [done|by repeat constructor]|].
  destruct IH as [IHne IHadj].
  destruct s as [|d s']; [split; [intros _|]; by repeat constructor|].
  change (splitSyllables (c :: d :: s'))
    with (if isAsciiLetter c && isAsciiLetter d then [c] :: splitSyllables (d :: s')
          else match splitSyllables (d :: s') with
               | [] => [[c]]
               | p :: ps => (c :: p) :: ps
               end).
  specialize (IHne ltac:(done)).
  destruct (isAsciiLetter c && isAsciiLetter d) eqn:Hcd.
  - split; [intros _|]; by constructor.
  - destruct (splitSyllables_head d s') as (p & ps & Hsplit).
    rewrite Hsplit in *.
    apply Forall_cons in IHne as [_ IHne]. apply Forall_cons in IHadj as [Hp IHadj].
    split; [intros _; by constructor|].
    constructor; [|done]. rewrite hasAdjacentLetters_cons, Hcd. done.
Qed.

(** ** Invariants of the lesson *)

Lemma addIncorrect_length (card : FlashcardData) (prev : list FlashcardData) :
  length (addIncorrect card prev) ≤ length prev + 1.
Proof.
  unfold addIncorrect. destruct (findWord _ _); [lia|]. rewrite length_app. simpl. lia.
Qed.

Lemma addIncorrect_subset (card : FlashcardData) (prev : list FlashcardData)
    (x : FlashcardData) :
  x ∈ addIncorrect card prev → x ∈ prev ∨ x = card.
Proof.
  unfold addIncorrect. destruct (findWord _ _); [by left|].
  intros [?|?%list_elem_of_singleton]%elem_of_app; [by left|by right].
Qed.

Lemma asTurnMode_idemp (m : LessonMode) (cur : TurnMode) :
  asTurnMode m (asTurnMode m cur) = asTurnMode m cur.
Proof. by destruct m. Qed.

Lemma ledgerInv_settle (c : Component) (next : LessonSt) :
  ledgerInv next → ledgerInv (state (commit c next)).
Proof.
  intros Hnext. destruct (commit_state_cases c next) as [->|(-> & Hactive & _)]; [done|].
  destruct Hnext as [? ? Hmode]. split; simpl; try done.
  intros _. apply Hmode. by rewrite Hactive.
Qed.

Lemma mount_ledger : ledgerInv (state mount).
Proof. split; simpl; [lia|by intros card ?%elem_of_nil|done]. Qed.

Lemma step_ledger `{Host} (e : Event) (c c' : Component) :
  timersAgree c → ledgerInv (state c) → step e c = Some c' → ledgerInv (state c').
Proof.
  intros Htimers Hled Hstep.
  destruct e; simpl in Hstep.
  - case_bool_decide as Hsetup; simplify_eq. apply ledgerInv_settle.
    destruct Hled. split; simpl; done.
  - assert (Hstart : ledgerInv (handleStartLesson flashcards random (state c))).
    { unfold handleStartLesson.
      destruct (bool_decide (length flashcards = 0)); [done|].
      split; simpl; [lia|by intros card ?%elem_of_nil|].
      intros _. destruct (decide (lessonMode (state c) = ModeMixed)) as [Hmixed|Hmixed].
      - by rewrite Hmixed.
      - rewrite (bool_decide_eq_false_2 _ Hmixed). apply asTurnMode_idemp. }
    destruct (lessonState (state c)); [|done|];
      [case_bool_decide; simplify_eq|simplify_eq]; by apply ledgerInv_settle.
  - case_bool_decide; simplify_eq. apply ledgerInv_settle.
    destruct Hled. split; simpl; done.
  - case_bool_decide as Hactive; simplify_eq. apply ledgerInv_settle.
    unfold handleCheckAnswer. destruct (_ || _); simpl; [done|].
    destruct (currentCardOf (state c)) as [card|] eqn:Hcard; simpl; [|done].
    assert (Hin : card ∈ shuffledDeck (state c)).
    { unfold currentCardOf in Hcard. destruct (currentCardIndex (state c)); [|done].
      by eapply list_elem_of_lookup_2. }
    destruct Hled as [Hcount Hdeck Hmode]. split; simpl; [| |done].
    + destruct (isCorrect _ _ _); [lia|].
      pose proof (addIncorrect_length card (incorrectAnswers (state c))). lia.
    + destruct (isCorrect _ _ _); [done|].
      intros x [?| ->]%addIncorrect_subset; [by apply Hdeck|done].
  - case_bool_decide; simplify_eq. apply ledgerInv_settle.
    destruct Hled. split; simpl; done.
  - destruct (_ && _); simplify_eq. apply ledgerInv_settle.
    destruct Hled. split; simpl; done.
  - case_bool_decide; simplify_eq. apply ledgerInv_settle.
    destruct Hled. split; simpl; done.
  - case_bool_decide; simplify_eq. apply ledgerInv_settle.
    destruct Hled. split; simpl; done.
  - destruct (tickTimer c); simplify_eq. apply ledgerInv_settle.
    destruct Hled. split; simpl; done.
  - destruct (feedbackTimer c) as [[deckLength mode]|] eqn:Hfb; simplify_eq.
    destruct (feedbackTimer_pending c _ _ Htimers Hfb) as (_ & _ & ->).
    apply ledgerInv_settle. destruct Hled as [? ? Hmode]. split; simpl; try done.
    intros Hphase. destruct (decide (lessonMode (state c) = ModeMixed)) as [Hmixed|Hmixed].
    + by rewrite Hmixed.
    + rewrite (bool_decide_eq_false_2 _ Hmixed). by apply Hmode.
Qed.

Lemma reachable_ledger `{Host} (c : Component) : reachable c → ledgerInv (state c).
Proof.
  induction 1 as [|e c c' Hc IH Hstep]; [apply mount_ledger|].
  eapply step_ledger; [|done..]. by apply reachable_invariant.
Qed.

(** X6: in every component that a lesson can reach the score and the
    length of the review list together are at most the number of answers,
    the time left is between 0 and 300, and a lesson whose time is 0 is not
    active. *)
Theorem reachable_counters `{Host} (c : Component) :
  reachable c →
  score (state c) + length (incorrectAnswers (state c)) ≤ cardsAnswered (state c)
  ∧ (0 ≤ timeLeft (state c) ≤ 300)%Z
  ∧ (timeLeft (state c) = 0%Z → lessonState (state c) ≠ Active).
Proof.
  intros Hc. destruct (reachable_invariant c Hc) as [(_ & _ & Hsettled) Hinv].
  split; [apply (led_count _ (reachable_ledger c Hc))|].
  split; [apply (inv_time _ Hinv)|].
  intros Hzero Hactive. unfold tickEffect in Hsettled.
  rewrite Hzero, Hactive in Hsettled. by destruct (isPaused (state c)).
Qed.

(** The lesson in which the learner answered in the last second, after its
    last tick. *)
Lemma reachable_counters_witness :
  @reachable pinyinHost expired
  ∧ score (state expired) + length (incorrectAnswers (state expired))
    ≤ cardsAnswered (state expired)
  ∧ (0 ≤ timeLeft (state expired) ≤ 300)%Z
  ∧ (timeLeft (state expired) = 0%Z → lessonState (state expired) ≠ Active).
Proof.
  assert (Hreach : @reachable pinyinHost expired).
  { apply (@run_reachable pinyinHost (lastSecond ++ [Tick]) mount); [constructor|].
    by vm_compute. }
  split; [done|]. by apply (@reachable_counters pinyinHost expired).
Defined.

(** X7: the review list is drawn from the deck of the lesson: each of its
    cards is a card of the deck, no two of them have the same word, and it
    is not longer than the deck. *)
Theorem review_list_within_deck `{Host} (c : Component) :
  reachable c →
  (∀ card, card ∈ incorrectAnswers (state c) → card ∈ shuffledDeck (state c))
  ∧ NoDup (map word (incorrectAnswers (state c)))
  ∧ length (incorrectAnswers (state c)) ≤ length (shuffledDeck (state c)).
Proof.
  intros Hc. destruct (reachable_invariant c Hc) as [_ Hinv].
  pose proof (led_deck _ (reachable_ledger c Hc)) as Hdeck.
  pose proof (inv_missed _ Hinv) as Hnd.
  split; [done|]. split; [done|].
  apply submseteq_length, NoDup_submseteq; [|done].
  by apply NoDup_fmap_1 in Hnd.
Qed.

Lemma review_list_within_deck_witness :
  @reachable pinyinHost pausedWithFeedback
  ∧ (∀ card, card ∈ incorrectAnswers (state pausedWithFeedback)
       → card ∈ shuffledDeck (state pausedWithFeedback))
  ∧ NoDup (map word (incorrectAnswers (state pausedWithFeedback)))
  ∧ length (incorrectAnswers (state pausedWithFeedback))
    ≤ length (shuffledDeck (state pausedWithFeedback)).
Proof.
  assert (Hreach : @reachable pinyinHost pausedWithFeedback).
  { apply (@run_reachable pinyinHost (typing ++ [CheckAnswer; TogglePause]) mount);
      [constructor|]. by vm_compute. }
  split; [done|]. by apply (@review_list_within_deck pinyinHost pausedWithFeedback).
Defined.

(** X8: the timers follow the state: the tick interval runs exactly while
    the lesson is active, not paused and has time left, and the feedback
    timeout is pending exactly while feedback is shown, with the length of
    the current deck and the current lesson mode in its closure. *)
Theorem timers_follow_state `{Host} (c : Component) :
  reachable c →
  (tickTimer c = true
   ↔ lessonState (state c) = Active ∧ isPaused (state c) = false ∧ (0 < timeLeft (state c))%Z)
  ∧ (feedback (state c) = FbNone → feedbackTimer c = None)
  ∧ (feedback (state c) ≠ FbNone →
     feedbackTimer c = Some (length (shuffledDeck (state c)), lessonMode (state c))).
Proof.
  intros Hc. destruct (reachable_invariant c Hc) as [Htimers _].
  split; [split|].
  - by apply tickTimer_running.
  - intros (Hactive & Hpaused & Hpos). destruct Htimers as (-> & _ & _).
    unfold tickEffect. rewrite Hactive, Hpaused.
    rewrite (bool_decide_eq_true_2 (Active = Active)) by done.
    by rewrite (bool_decide_eq_true_2 _ Hpos).
  - destruct Htimers as (_ & -> & _). unfold feedbackEffect.
    split; intros Hfb.
    + rewrite bool_decide_eq_false_2; [done|]. by intros [].
    + by rewrite bool_decide_eq_true_2.
Qed.

Lemma timers_follow_state_witness :
  @reachable pinyinHost pausedWithFeedback
  ∧ (tickTimer pausedWithFeedback = true
     ↔ lessonState (state pausedWithFeedback) = Active
       ∧ isPaused (state pausedWithFeedback) = false
       ∧ (0 < timeLeft (state pausedWithFeedback))%Z)
  ∧ (feedback (state pausedWithFeedback) = FbNone → feedbackTimer pausedWithFeedback = None)
  ∧ (feedback (state pausedWithFeedback) ≠ FbNone →
     feedbackTimer pausedWithFeedback
     = Some (length (shuffledDeck (state pausedWithFeedback)),
             lessonMode (state pausedWithFeedback))).
Proof.
  assert (Hreach : @reachable pinyinHost pausedWithFeedback).
  { apply (@run_reachable pinyinHost (typing ++ [CheckAnswer; TogglePause]) mount);
      [constructor|]. by vm_compute. }
  split; [done|]. by apply (@timers_follow_state pinyinHost pausedWithFeedback).
Defined.

(** ** Answers *)

(** X9: in an active lesson the check of an answer never fails on a missing
    card, and it leaves the component exactly as it is when, and only when,
    the input is made of white space only or feedback is shown. *)
Theorem answer_ignored_iff `{Host} (c : Component) :
  reachable c → lessonState (state c) = Active →
  is_Some (handleCheckAnswer (state c))
  ∧ ∃ c', step CheckAnswer c = Some c'
      ∧ (c' = c ↔ Forall (λ ch, isWhiteSpace ch = true) (userInput (state c))
                  ∨ feedback (state c) ≠ FbNone).
Proof.
  intros Hc Hactive.
  destruct (decide (trim (userInput (state c)) = [])) as [Hblank|Hinput].
  { rewrite handleCheckAnswer_ignored by (by left). split; [done|].
    exists c. split.
    - simpl. rewrite bool_decide_eq_true_2 by done.
      rewrite handleCheckAnswer_ignored by (by left). simpl. by rewrite commit_same.
    - split; [intros _; left; by apply trim_nil_iff|done]. }
  destruct (decide (feedback (state c) = FbNone)) as [Hfb|Hfb].
  2:{ rewrite handleCheckAnswer_ignored by (by right). split; [done|].
      exists c. split.
      - simpl. rewrite bool_decide_eq_true_2 by done.
        rewrite handleCheckAnswer_ignored by (by right). simpl. by rewrite commit_same.
      - split; [intros _; by right|done]. }
  destruct (reachable_current_card c Hc Hactive) as [card Hcard].
  destruct (handleCheckAnswer_accepted _ card Hinput Hfb Hcard)
    as (s' & Hcheck & Hdeps & _ & Hturns & _).
  destruct (step_CheckAnswer c s' Hc Hactive Hcheck Hdeps) as (c' & Hstep & Hst & _).
  split; [by rewrite Hcheck|]. exists c'. split; [done|]. split.
  - intros ->. rewrite Hst in Hturns. lia.
  - intros [Hws%trim_nil_iff|?]; done.
Qed.

Lemma answer_ignored_iff_witness :
  @reachable pinyinHost typedAnswer ∧ lessonState (state typedAnswer) = Active
  ∧ is_Some (@handleCheckAnswer pinyinHost (state typedAnswer))
  ∧ ∃ c', @step pinyinHost CheckAnswer typedAnswer = Some c'
      ∧ (c' = typedAnswer
         ↔ Forall (λ ch, isWhiteSpace ch = true) (userInput (state typedAnswer))
           ∨ feedback (state typedAnswer) ≠ FbNone).
Proof.
  assert (Hreach : @reachable pinyinHost typedAnswer).
  { apply (@run_reachable pinyinHost typing mount); [constructor|]. by vm_compute. }
  split; [done|]. split; [by vm_compute|].
  apply (@answer_ignored_iff pinyinHost typedAnswer); [done|by vm_compute].
Defined.

(** X10: a turn.  An accepted answer followed by the feedback timeout
    leaves the lesson ready for the next answer: no feedback, an empty
    input, the index one further round the deck, one more answer counted,
    and the deck, the time and the pause as they were. *)
Theorem turn_cycle `{Host} (c : Component) (r : N) :
  reachable c → lessonState (state c) = Active →
  feedback (state c) = FbNone → trim (userInput (state c)) ≠ [] →
  ∃ c1 c2, step CheckAnswer c = Some c1
    ∧ step (FeedbackTimeout r) c1 = Some c2
    ∧ lessonState (state c2) = Active
    ∧ feedback (state c2) = FbNone
    ∧ userInput (state c2) = []
    ∧ currentCardIndex (state c2)
      = nextIndex (currentCardIndex (state c)) (length (shuffledDeck (state c)))
    ∧ is_Some (currentCardOf (state c2))
    ∧ cardsAnswered (state c2) = cardsAnswered (state c) + 1
    ∧ shuffledDeck (state c2) = shuffledDeck (state c)
    ∧ timeLeft (state c2) = timeLeft (state c)
    ∧ isPaused (state c2) = isPaused (state c)
    ∧ feedbackTimer c2 = None.
Proof.
  intros Hc Hactive Hfb Hinput.
  destruct (reachable_current_card c Hc Hactive) as [card Hcard].
  assert (Hcheck : ∃ s', handleCheckAnswer (state c) = Some s'
            ∧ tickDeps s' = tickDeps (state c) ∧ feedback s' ≠ FbNone
            ∧ cardsAnswered s' = cardsAnswered (state c) + 1
            ∧ shuffledDeck s' = shuffledDeck (state c)
            ∧ currentCardIndex s' = currentCardIndex (state c)
            ∧ lessonMode s' = lessonMode (state c)).
  { unfold handleCheckAnswer. rewrite (bool_decide_eq_false_2 _ Hinput).
    rewrite bool_decide_eq_false_2 by (rewrite Hfb; naive_solver).
    rewrite Hcard. simpl. eexists. split; [done|]. simpl.
    destruct (isCorrect _ _ _); repeat split; try done; lia. }
  destruct Hcheck as (s' & Hcheck & Hdeps & Hshown & Hturns & Hdeck & Hidx & Hmode).
  destruct (step_CheckAnswer c s' Hc Hactive Hcheck Hdeps) as (c1 & Hstep & Hst & Hc1).
  destruct (feedback_timeout_fires c1 r Hc1) as (c2 & Hstep2 & Hst2 & Hfb2).
  { by rewrite Hst. }
  assert (Hc2 : reachable c2) by (by eapply reachable_step).
  exists c1, c2. split; [done|]. split; [done|].
  assert (Hactive2 : lessonState (state c2) = Active).
  { rewrite Hst2, Hst. simpl. unfold tickDeps in Hdeps. by injection Hdeps as -> _ _. }
  split; [done|].
  split; [by rewrite Hst2|]. split; [by rewrite Hst2|].
  split; [rewrite Hst2, Hst; simpl; by rewrite Hidx, Hdeck|].
  split; [by apply reachable_current_card|].
  rewrite Hst2, Hst. simpl. unfold tickDeps in Hdeps. injection Hdeps as _ -> ->.
  done.
Qed.

Lemma turn_cycle_witness :
  @reachable pinyinHost typedAnswer ∧ lessonState (state typedAnswer) = Active
  ∧ feedback (state typedAnswer) = FbNone ∧ trim (userInput (state typedAnswer)) ≠ []
  ∧ ∃ c1 c2, @step pinyinHost CheckAnswer typedAnswer = Some c1
    ∧ @step pinyinHost (FeedbackTimeout 0) c1 = Some c2
    ∧ lessonState (state c2) = Active
    ∧ feedback (state c2) = FbNone
    ∧ userInput (state c2) = []
    ∧ currentCardIndex (state c2)
      = nextIndex (currentCardIndex (state typedAnswer))
          (length (shuffledDeck (state typedAnswer)))
    ∧ is_Some (currentCardOf (state c2))
    ∧ cardsAnswered (state c2) = cardsAnswered (state typedAnswer) + 1
    ∧ shuffledDeck (state c2) = shuffledDeck (state typedAnswer)
    ∧ timeLeft (state c2) = timeLeft (state typedAnswer)
    ∧ isPaused (state c2) = isPaused (state typedAnswer)
    ∧ feedbackTimer c2 = None.
Proof.
  assert (Hreach : @reachable pinyinHost typedAnswer).
  { apply (@run_reachable pinyinHost typing mount); [constructor|]. by vm_compute. }
  split; [done|]. split; [by vm_compute|]. split; [by vm_compute|].
  split; [by vm_compute|].
  apply (@turn_cycle pinyinHost typedAnswer 0%N); by vm_compute.
Defined.

Lemma nextIndex_iter (len n k : nat) :
  0 < len → Nat.iter k (λ i, nextIndex i len) (Idx n) = Idx (if k is 0 then n else (n + k) mod len).
Proof.
  intros Hlen. induction k as [|k IH]; [done|].
  change (Nat.iter (S k) (λ i, nextIndex i len) (Idx n))
    with (nextIndex (Nat.iter k (λ i, nextIndex i len) (Idx n)) len).
  rewrite IH. destruct len as [|len']; [lia|].
  unfold nextIndex. f_equal. destruct k as [|k'].
  - done.
  - rewrite Nat.Div0.add_mod_idemp_l. f_equal. lia.
Qed.

(** X11: the index goes round the deck: from a position of the deck, as
    many advances as the deck has cards lead back to that position, and
    every advance gives a position of the deck. *)
Theorem index_goes_round (len n : nat) :
  n < len →
  Nat.iter len (λ i, nextIndex i len) (Idx n) = Idx n
  ∧ ∀ k, ∃ m, Nat.iter k (λ i, nextIndex i len) (Idx n) = Idx m ∧ m < len.
Proof.
  intros Hn. assert (Hlen : 0 < len) by lia. split.
  - rewrite nextIndex_iter by done. destruct len as [|len']; [lia|]. f_equal.
    rewrite <- Nat.Div0.add_mod_idemp_r, Nat.Div0.mod_same, Nat.add_0_r.
    by apply Nat.mod_small.
  - intros k. rewrite nextIndex_iter by done. eexists. split; [done|].
    destruct k; [done|]. apply Nat.mod_upper_bound. lia.
Qed.

Lemma index_goes_round_witness :
  1 < 3
  ∧ Nat.iter 3 (λ i, nextIndex i 3) (Idx 1) = Idx 1
  ∧ ∀ k, ∃ m, Nat.iter k (λ i, nextIndex i 3) (Idx 1) = Idx m ∧ m < 3.
Proof. split; [lia|]. apply (index_goes_round 3 1). lia. Defined.

(** ** The clock *)

Lemma tick_step `{Host} (c : Component) :
  reachable c → lessonState (state c) = Active → isPaused (state c) = false →
  (0 < timeLeft (state c))%Z →
  ∃ c', step Tick c = Some c' ∧ reachable c'
    ∧ state c' = (if bool_decide (timeLeft (state c) = 1%Z)
                  then setLessonState Summary (tickCallback (state c))
                  else tickCallback (state c)).
Proof.
  intros Hc Hactive Hpaused Hpos.
  destruct (reachable_invariant c Hc) as [Htimers _].
  assert (Htick : tickTimer c = true).
  { destruct Htimers as (-> & _ & _). unfold tickEffect. rewrite Hactive, Hpaused.
    rewrite (bool_decide_eq_true_2 (Active = Active)) by done.
    by rewrite (bool_decide_eq_true_2 _ Hpos). }
  assert (Hstep : step Tick c = Some (commit c (tickCallback (state c)))).
  { simpl. by rewrite Htick. }
  eexists. split; [exact Hstep|]. split; [by eapply reachable_step|].
  destruct (commit_spec c (tickCallback (state c)) Htimers) as [-> _].
  assert (Hreq : (tickEffect (tickCallback (state c))).2
                 = bool_decide (timeLeft (state c) = 1%Z)).
  { unfold tickEffect. simpl. rewrite Hactive, Hpaused.
    repeat case_bool_decide; simpl; try done; lia. }
  by rewrite Hreq.
Qed.

(** X12: the clock runs down one second per tick and stops at 0.  In an
    active lesson that is not paused and has [n] seconds left, [k <= n]
    ticks leave [n - k] seconds and change nothing else; the lesson stays
    active before the last of them, the last one ends it in the summary
    with 0 seconds, and no tick can follow. *)
Theorem ticks_run_down `{Host} (c : Component) (n k : nat) :
  reachable c → lessonState (state c) = Active → isPaused (state c) = false →
  timeLeft (state c) = Z.of_nat n → 0 < n → k ≤ n →
  ∃ c', run (replicate k Tick) c = Some c'
    ∧ timeLeft (state c') = Z.of_nat (n - k)
    ∧ sameButClock (state c) (state c')
    ∧ lessonState (state c') = (if bool_decide (k = n) then Summary else Active)
    ∧ (k = n → step Tick c' = None).
Proof.
  intros Hc Hactive Hpaused Htime Hn.
  revert c Hc Hactive Hpaused n Htime Hn.
  induction k as [|k IH]; intros c Hc Hactive Hpaused n Htime Hn Hk.
  - exists c. simpl. split; [done|]. split; [rewrite Htime; f_equal; lia|].
    split; [unfold sameButClock; done|].
    rewrite bool_decide_eq_false_2 by lia. split; [done|lia].
  - destruct (tick_step c Hc Hactive Hpaused ltac:(lia)) as (c1 & Hstep & Hc1 & Hst).
    cbn [replicate run]. rewrite Hstep.
    destruct (decide (n = 1)) as [->|Hmore].
    + assert (k = 0) as -> by lia. simpl.
      rewrite bool_decide_eq_true_2 in Hst by (rewrite Htime; done).
      exists c1. split; [done|]. rewrite Hst. simpl.
      split; [rewrite Htime; done|]. split; [unfold sameButClock; done|].
      split; [done|]. intros _.
      destruct (reachable_invariant c1 Hc1) as [(Htick & _ & _) _].
      simpl. rewrite Htick, Hst. by rewrite tickEffect_not_active.
    + rewrite bool_decide_eq_false_2 in Hst by lia.
      destruct (IH c1 Hc1) with (n := n - 1) as (c' & Hrun & Htime' & Hsame & Hphase & Hlast).
      * by rewrite Hst.
      * by rewrite Hst.
      * rewrite Hst. simpl. lia.
      * lia.
      * lia.
      * exists c'. split; [done|]. split; [rewrite Htime'; f_equal; lia|].
        split.
        { unfold sameButClock in *. rewrite Hst in Hsame. simpl in Hsame. done. }
        split.
        { rewrite Hphase. destruct (decide (k = n - 1)) as [Heq|Hne].
          - rewrite !bool_decide_eq_true_2 by lia. done.
          - rewrite !bool_decide_eq_false_2 by lia. done. }
        intros Heq. apply Hlast. lia.
Qed.

(** The whole lesson: 300 ticks from the start. *)
Lemma ticks_run_down_witness :
  @reachable pinyinHost started ∧ lessonState (state started) = Active
  ∧ isPaused (state started) = false ∧ timeLeft (state started) = Z.of_nat 300
  ∧ 0 < 300 ∧ 300 ≤ 300
  ∧ ∃ c', @run pinyinHost (replicate 300 Tick) started = Some c'
    ∧ timeLeft (state c') = Z.of_nat (300 - 300)
    ∧ sameButClock (state started) (state c')
    ∧ lessonState (state c') = (if bool_decide (300 = 300) then Summary else Active)
    ∧ (300 = 300 → @step pinyinHost Tick c' = None).
Proof.
  assert (Hreach : @reachable pinyinHost started).
  { apply (@run_reachable pinyinHost [StartLesson sampleDeck zeros] mount); [constructor|].
    by vm_compute. }
  split; [done|]. split; [by vm_compute|]. split; [by vm_compute|].
  split; [by vm_compute|]. split; [lia|]. split; [lia|].
  apply (@ticks_run_down pinyinHost started 300 300); try done; lia.
Defined.

(** ** The deck and the direction *)

Lemma commit_deck_mode (c : Component) (next : LessonSt) :
  shuffledDeck (state (commit c next)) = shuffledDeck next
  ∧ lessonMode (state (commit c next)) = lessonMode next.
Proof. by destruct (commit_state_cases c next) as [->|(-> & _)]. Qed.

(** X13: the deck of a lesson is fixed by its start and the lesson mode by
    the setup view: no other event changes the shuffled deck, no event but
    the choice of a mode changes the lesson mode. *)
Theorem deck_and_mode_fixed `{Host} (e : Event) (c c' : Component) :
  step e c = Some c' →
  ((∀ D random, e ≠ StartLesson D random) →
   shuffledDeck (state c') = shuffledDeck (state c))
  ∧ ((∀ m, e ≠ ChooseMode m) → lessonMode (state c') = lessonMode (state c)).
Proof.
  intros Hstep.
  destruct e; simpl in Hstep.
  - case_bool_decide; simplify_eq.
    destruct (commit_deck_mode c (setLessonMode m (state c))) as [-> ->].
    split; [done|]. intros Hnot. by destruct (Hnot m).
  - assert (Hmode : lessonMode (handleStartLesson flashcards random (state c))
                    = lessonMode (state c)).
    { unfold handleStartLesson. by destruct (bool_decide (length flashcards = 0)). }
    split; [intros Hnot; by destruct (Hnot flashcards random)|]. intros _.
    destruct (lessonState (state c)); [|done|];
      [destruct (bool_decide (0 < length flashcards)); simplify_eq|simplify_eq];
      by destruct (commit_deck_mode c (handleStartLesson flashcards random (state c)))
        as [_ ->].
  - case_bool_decide; simplify_eq.
    by destruct (commit_deck_mode c (setUserInput text (state c))) as [-> ->].
  - case_bool_decide; simplify_eq.
    destruct (commit_deck_mode c (default (state c) (handleCheckAnswer (state c))))
      as [-> ->].
    unfold handleCheckAnswer. destruct (_ || _); simpl; [done|].
    by destruct (currentCardOf (state c)).
  - case_bool_decide; simplify_eq.
    by destruct (commit_deck_mode c (setIsPaused (negb (isPaused (state c))) (state c)))
      as [-> ->].
  - destruct (_ && _); simplify_eq.
    by destruct (commit_deck_mode c (setIsPaused false (state c))) as [-> ->].
  - case_bool_decide; simplify_eq.
    by destruct (commit_deck_mode c (setLessonState Setup (state c))) as [-> ->].
  - case_bool_decide; simplify_eq.
    by destruct (commit_deck_mode c (setLessonState Setup (state c))) as [-> ->].
  - destruct (tickTimer c); simplify_eq.
    by destruct (commit_deck_mode c (tickCallback (state c))) as [-> ->].
  - destruct (feedbackTimer c) as [[deckLength mode]|]; simplify_eq.
    by destruct (commit_deck_mode c (feedbackCallback deckLength mode r (state c)))
      as [-> ->].
Qed.

(** The feedback timeout that fires under the pause. *)
Lemma deck_and_mode_fixed_witness :
  ∃ c', @step pinyinHost (FeedbackTimeout 0) pausedWithFeedback = Some c'
    ∧ ((∀ D random, FeedbackTimeout 0 ≠ StartLesson D random) →
       shuffledDeck (state c') = shuffledDeck (state pausedWithFeedback))
    ∧ ((∀ m, FeedbackTimeout 0 ≠ ChooseMode m) →
       lessonMode (state c') = lessonMode (state pausedWithFeedback)).
Proof.
  assert (Hstep : ∃ c', @step pinyinHost (FeedbackTimeout 0) pausedWithFeedback = Some c').
  { eexists. vm_compute. reflexivity. }
  destruct Hstep as [c' Hstep]. exists c'. split; [done|].
  exact (@deck_and_mode_fixed pinyinHost (FeedbackTimeout 0) pausedWithFeedback c' Hstep).
Defined.

(** X14: outside the setup view a lesson of a fixed mode asks every turn in
    the direction of that mode. *)
Theorem fixed_mode_direction `{Host} (c : Component) :
  reachable c → lessonState (state c) ≠ Setup →
  (lessonMode (state c) = ModeHanziToPinyin → currentTurnMode (state c) = HanziToPinyin)
  ∧ (lessonMode (state c) = ModePinyinToHanzi → currentTurnMode (state c) = PinyinToHanzi)
  ∧ (lessonMode (state c) = ModeTranslationToHanzi
     → currentTurnMode (state c) = TranslationToHanzi).
Proof.
  intros Hc Hphase.
  pose proof (led_mode _ (reachable_ledger c Hc) Hphase) as Hmode.
  repeat split; intros Hm; rewrite Hm in Hmode; by rewrite <- Hmode.
Qed.

Lemma fixed_mode_direction_witness :
  @reachable pinyinHost expired ∧ lessonState (state expired) ≠ Setup
  ∧ (lessonMode (state expired) = ModeHanziToPinyin
     → currentTurnMode (state expired) = HanziToPinyin)
  ∧ (lessonMode (state expired) = ModePinyinToHanzi
     → currentTurnMode (state expired) = PinyinToHanzi)
  ∧ (lessonMode (state expired) = ModeTranslationToHanzi
     → currentTurnMode (state expired) = TranslationToHanzi).
Proof.
  assert (Hreach : @reachable pinyinHost expired).
  { apply (@run_reachable pinyinHost (lastSecond ++ [Tick]) mount); [constructor|].
    by vm_compute. }
  split; [done|]. split; [by vm_compute|].
  apply (@fixed_mode_direction pinyinHost expired); [done|by vm_compute].
Defined.

(** X15: the draw of a direction in the mixed mode always gives one of the
    three directions, whatever the direction before, and each of the three
    is given by some value of [Math.random()]. *)
Theorem randomTurnMode_modes :
  (∀ r current, randomTurnMode r current = default HanziToPinyin (modes !! floorRandom r 3)
                ∧ randomTurnMode r current ∈ modes)
  ∧ (∀ m, ∃ r, ∀ current, randomTurnMode r current = m).
Proof.
  split.
  - intros r current. unfold randomTurnMode.
    pose proof (floorRandom_lt r (length modes) ltac:(simpl; lia)) as Hlt.
    change (length modes) with 3 in *.
    destruct (floorRandom r 3) as [|[|[|?]]]; simpl; [| | |lia];
      (split; [done|]); unfold modes; repeat constructor.
  - intros m. destruct m.
    + exists (2 ^ 52)%N. intros current. by vm_compute.
    + exists 0%N. intros current. by vm_compute.
    + exists (2 ^ 53 - 1)%N. intros current. by vm_compute.
Qed.

(** ** Leaving and starting again *)

(** X16: leaving a lesson resets nothing.  The exit button of the active
    view and the button of the summary lead to the setup view with the
    score, the answers, the deck, the feedback and the input as they were;
    the tick interval is cleared and a pending feedback timeout stays
    pending. *)
Theorem leaving_keeps_session `{Host} (c : Component) :
  reachable c →
  (lessonState (state c) = Active →
   ∃ c', step Exit c = Some c'
     ∧ lessonState (state c') = Setup
     ∧ sameSession (state c) (state c')
     ∧ isPaused (state c') = isPaused (state c)
     ∧ tickTimer c' = false
     ∧ feedbackTimer c' = feedbackTimer c)
  ∧ (lessonState (state c) = Summary →
     ∃ c', step ChooseAnotherMode c = Some c'
       ∧ lessonState (state c') = Setup
       ∧ sameSession (state c) (state c')
       ∧ isPaused (state c') = isPaused (state c)
       ∧ tickTimer c' = false
       ∧ feedbackTimer c' = feedbackTimer c).
Proof.
  intros Hc. destruct (reachable_invariant c Hc) as [Htimers _].
  assert (Hleave : lessonState (state (commit c (setLessonState Setup (state c)))) = Setup
            ∧ sameSession (state c) (state (commit c (setLessonState Setup (state c))))
            ∧ isPaused (state (commit c (setLessonState Setup (state c))))
              = isPaused (state c)
            ∧ tickTimer (commit c (setLessonState Setup (state c))) = false
            ∧ feedbackTimer (commit c (setLessonState Setup (state c))) = feedbackTimer c).
  { destruct (commit_spec c (setLessonState Setup (state c)) Htimers)
      as [Hst (Htick & Hfb & _)].
    rewrite tickEffect_not_active in Hst by done. simpl in Hst.
    rewrite Htick, Hfb, Hst. rewrite tickEffect_not_active by done.
    destruct Htimers as (_ & -> & _).
    unfold sameSession. simpl. repeat split; done. }
  split; intros Hphase; eexists; (split; [simpl; by rewrite bool_decide_eq_true_2|done]).
Qed.

Lemma leaving_keeps_session_witness :
  @reachable pinyinHost pausedWithFeedback
  ∧ (lessonState (state pausedWithFeedback) = Active →
     ∃ c', @step pinyinHost Exit pausedWithFeedback = Some c'
       ∧ lessonState (state c') = Setup
       ∧ sameSession (state pausedWithFeedback) (state c')
       ∧ isPaused (state c') = isPaused (state pausedWithFeedback)
       ∧ tickTimer c' = false
       ∧ feedbackTimer c' = feedbackTimer pausedWithFeedback)
  ∧ (lessonState (state pausedWithFeedback) = Summary →
     ∃ c', @step pinyinHost ChooseAnotherMode pausedWithFeedback = Some c'
       ∧ lessonState (state c') = Setup
       ∧ sameSession (state pausedWithFeedback) (state c')
       ∧ isPaused (state c') = isPaused (state pausedWithFeedback)
       ∧ tickTimer c' = false
       ∧ feedbackTimer c' = feedbackTimer pausedWithFeedback).
Proof.
  assert (Hreach : @reachable pinyinHost pausedWithFeedback).
  { apply (@run_reachable pinyinHost (typing ++ [CheckAnswer; TogglePause]) mount);
      [constructor|]. by vm_compute. }
  split; [done|]. by apply (@leaving_keeps_session pinyinHost pausedWithFeedback).
Defined.

Lemma start_step `{Host} (c : Component) (D : list FlashcardData) (random : RandomSource) :
  D ≠ [] → lessonState (state c) ≠ Active →
  ∃ c1, step (StartLesson D random) c = Some c1
    ∧ state c1 = handleStartLesson D random (state c).
Proof.
  intros HD Hphase.
  assert (Hlen : 0 < length D) by (destruct D; [done|simpl; lia]).
  exists (commit c (handleStartLesson D random (state c))). split.
  - simpl. destruct (lessonState (state c)); [|done|done].
    by rewrite bool_decide_eq_true_2.
  - destruct (commit_state_cases c (handleStartLesson D random (state c)))
      as [?|(_ & _ & Hzero)]; [done|].
    unfold handleStartLesson in Hzero.
    rewrite bool_decide_eq_false_2 in Hzero by lia. done.
Qed.

(** X17: the start of a lesson resets neither the feedback nor the input.
    A lesson started while feedback is still shown begins with that
    feedback: answers are ignored until the pending timeout fires, and the
    timeout moves on from the first card, which is never answered. *)
Theorem start_keeps_feedback `{Host} (c : Component) (D : list FlashcardData)
    (random : RandomSource) (r : N) :
  reachable c → lessonState (state c) ≠ Active → D ≠ [] → feedback (state c) ≠ FbNone →
  ∃ c1 c2, step (StartLesson D random) c = Some c1
    ∧ lessonState (state c1) = Active
    ∧ feedback (state c1) = feedback (state c)
    ∧ userInput (state c1) = userInput (state c)
    ∧ step CheckAnswer c1 = Some c1
    ∧ step (FeedbackTimeout r) c1 = Some c2
    ∧ lessonState (state c2) = Active
    ∧ feedback (state c2) = FbNone
    ∧ currentCardIndex (state c2) = Idx (1 mod length D)
    ∧ cardsAnswered (state c2) = 0
    ∧ score (state c2) = 0.
Proof.
  intros Hc Hphase HD Hfb.
  destruct (start_step c D random HD Hphase) as (c1 & Hstep & Hst).
  assert (Hc1 : reachable c1) by (by eapply reachable_step).
  assert (Hlen : length D ≠ 0) by (by destruct D).
  assert (Hnext : state c1 = handleStartLesson D random (state c)) by done.
  unfold handleStartLesson in Hnext. rewrite bool_decide_eq_false_2 in Hnext by done.
  assert (Hactive : lessonState (state c1) = Active) by (by rewrite Hnext).
  assert (Hperm : shuffledDeck (state c1) ≡ₚ D)
    by (rewrite Hnext; apply shuffleLoop_Permutation).
  assert (Hfb1 : feedback (state c1) = feedback (state c)) by (by rewrite Hnext).
  destruct (feedback_timeout_fires c1 r Hc1) as (c2 & Hstep2 & Hst2 & _).
  { by rewrite Hfb1. }
  exists c1, c2. split; [done|]. split; [done|]. split; [done|].
  split; [by rewrite Hnext|]. split.
  { simpl. rewrite bool_decide_eq_true_2 by done.
    rewrite handleCheckAnswer_ignored by (right; by rewrite Hfb1).
    simpl. by rewrite commit_same. }
  split; [done|]. rewrite Hst2.
  assert (Hdeck : length (shuffledDeck (state c1)) = length D)
    by (by apply Permutation_length).
  rewrite Hdeck. simpl. rewrite Hnext. simpl.
  repeat split; try done.
  unfold nextIndex. by destruct (length D).
Qed.

(** The learner answers in the last second and starts again at once. *)
Lemma start_keeps_feedback_witness :
  @reachable pinyinHost expired ∧ lessonState (state expired) ≠ Active
  ∧ sampleDeck ≠ [] ∧ feedback (state expired) ≠ FbNone
  ∧ ∃ c1 c2, @step pinyinHost (StartLesson sampleDeck zeros) expired = Some c1
    ∧ lessonState (state c1) = Active
    ∧ feedback (state c1) = feedback (state expired)
    ∧ userInput (state c1) = userInput (state expired)
    ∧ @step pinyinHost CheckAnswer c1 = Some c1
    ∧ @step pinyinHost (FeedbackTimeout 0) c1 = Some c2
    ∧ lessonState (state c2) = Active
    ∧ feedback (state c2) = FbNone
    ∧ currentCardIndex (state c2) = Idx (1 mod length sampleDeck)
    ∧ cardsAnswered (state c2) = 0
    ∧ score (state c2) = 0.
Proof.
  assert (Hreach : @reachable pinyinHost expired).
  { apply (@run_reachable pinyinHost (lastSecond ++ [Tick]) mount); [constructor|].
    by vm_compute. }
  split; [done|]. split; [by vm_compute|]. split; [done|]. split; [by vm_compute|].
  apply (@start_keeps_feedback pinyinHost expired sampleDeck zeros 0%N);
    [done|by vm_compute..].
Defined.

(** X18: an empty deck starts nothing: the setup view has no start button
    for it, and in the summary view the click leaves the component, timers
    included, as it is. *)
Theorem start_on_empty_deck_ignored `{Host} (c : Component) (random : RandomSource) :
  step (StartLesson [] random) c
  = if bool_decide (lessonState (state c) = Summary) then Some c else None.
Proof.
  simpl. destruct (lessonState (state c)); simpl; [done|done|].
  unfold handleStartLesson. simpl. by rewrite commit_same.
Qed.

(** ** The text of the clock *)

Lemma clockText_digits (t : Z) :
  (0 ≤ t < 600)%Z →
  clockText t
  = [Z.to_N (48 + t `div` 60); 58%N;
     Z.to_N (48 + (t `mod` 60) `div` 10); Z.to_N (48 + (t `mod` 60) `mod` 10)].
Proof.
  intros Ht.
  assert (Hall : bool_decide (Forall (λ t, clockText t
            = [Z.to_N (48 + t `div` 60); 58%N;
               Z.to_N (48 + (t `mod` 60) `div` 10); Z.to_N (48 + (t `mod` 60) `mod` 10)])
            (seqZ 0 600)) = true) by (by vm_compute).
  apply bool_decide_eq_true_1 in Hall.
  rewrite Forall_forall in Hall. apply Hall, elem_of_seqZ. lia.
Qed.

(** X19: for a time of less than ten minutes, the time of a lesson among
    them, the clock shows one digit of minutes, a colon and two digits of
    seconds. *)
Theorem clockText_shape (t : Z) :
  (0 ≤ t < 600)%Z →
  clockText t
  = [Z.to_N (48 + t `div` 60); 58%N;
     Z.to_N (48 + (t `mod` 60) `div` 10); Z.to_N (48 + (t `mod` 60) `mod` 10)].
Proof. apply clockText_digits. Qed.

Lemma clockText_shape_witness :
  (0 ≤ 299 < 600)%Z ∧ clockText 299 = utf16 "4:59".
Proof. split; [lia|]. rewrite (clockText_shape 299) by lia. by vm_compute. Defined.

(** X20: the clock of a lesson never shows the same text for two different
    times. *)
Theorem clockText_inj `{Host} (c c' : Component) :
  reachable c → reachable c' →
  clockText (timeLeft (state c)) = clockText (timeLeft (state c')) →
  timeLeft (state c) = timeLeft (state c').
Proof.
  intros Hc Hc' Heq.
  destruct (reachable_invariant c Hc) as [_ [Ht _ _ _ _ _]].
  destruct (reachable_invariant c' Hc') as [_ [Ht' _ _ _ _ _]].
  unfold LESSON_DURATION in *.
  rewrite !clockText_digits in Heq by lia.
  injection Heq as Hm Hs1 Hs2.
  assert (Hq : (timeLeft (state c) `div` 60 = timeLeft (state c') `div` 60)%Z).
  { pose proof (Z.div_pos (timeLeft (state c)) 60). 
    pose proof (Z.div_pos (timeLeft (state c')) 60). lia. }
  assert (Hr1 : ((timeLeft (state c) `mod` 60) `div` 10
                 = (timeLeft (state c') `mod` 60) `div` 10)%Z).
  { pose proof (Z.mod_pos_bound (timeLeft (state c)) 60).
    pose proof (Z.mod_pos_bound (timeLeft (state c')) 60).
    pose proof (Z.div_pos (timeLeft (state c) `mod` 60) 10).
    pose proof (Z.div_pos (timeLeft (state c') `mod` 60) 10). lia. }
  assert (Hr2 : ((timeLeft (state c) `mod` 60) `mod` 10
                 = (timeLeft (state c') `mod` 60) `mod` 10)%Z).
  { pose proof (Z.mod_pos_bound (timeLeft (state c) `mod` 60) 10).
    pose proof (Z.mod_pos_bound (timeLeft (state c') `mod` 60) 10). lia. }
  rewrite (Z.div_mod (timeLeft (state c)) 60), (Z.div_mod (timeLeft (state c')) 60) by lia.
  rewrite (Z.div_mod (timeLeft (state c) `mod` 60) 10),
    (Z.div_mod (timeLeft (state c') `mod` 60) 10) by lia.
  lia.
Qed.

Lemma clockText_inj_witness :
  @reachable pinyinHost started ∧ @reachable pinyinHost typedAnswer
  ∧ clockText (timeLeft (state started)) = clockText (timeLeft (state typedAnswer))
  ∧ timeLeft (state started) = timeLeft (state typedAnswer).
Proof.
  assert (H1 : @reachable pinyinHost started).
  { apply (@run_reachable pinyinHost [StartLesson sampleDeck zeros] mount); [constructor|].
    by vm_compute. }
  assert (H2 : @reachable pinyinHost typedAnswer).
  { apply (@run_reachable pinyinHost typing mount); [constructor|]. by vm_compute. }
  split; [done|]. split; [done|]. split; [by vm_compute|].
  apply (@clockText_inj pinyinHost started typedAnswer); [done|done|by vm_compute].
Defined.

(** ** The deck that the lesson is given *)

Lemma words_imap_withDate (now : nat → N) (l : list FlashcardData) :
  map word (imap (λ i card, withDate card (now i)) l) = map word l.
Proof.
  revert now. induction l as [|card l IH]; intros now; [done|].
  rewrite imap_cons. simpl. f_equal. apply (IH (now ∘ S)).
Qed.

Lemma isAlreadySaved_spec (card : FlashcardData) (saved : list FlashcardData) :
  bool_decide (Exists (λ c, word c = word card) saved) = isSaved saved card.
Proof. apply (findWord_spec (word card) saved). Qed.

(** X21: the save button.  The card saved is shown as saved afterwards,
    the cards saved before keep their places, at most one card is added,
    a second save of the same card, at whatever time, changes nothing, and
    nothing is added exactly when a card with that word was saved before. *)
Theorem handleSaveCard_saved (card : FlashcardData) (now now' : N)
    (saved : list FlashcardData) :
  isSaved (handleSaveCard card now saved) card = true
  ∧ saved `prefix_of` handleSaveCard card now saved
  ∧ length (handleSaveCard card now saved) ≤ length saved + 1
  ∧ handleSaveCard card now' (handleSaveCard card now saved) = handleSaveCard card now saved
  ∧ (handleSaveCard card now saved = saved ↔ isSaved saved card = true).
Proof.
  assert (Heq : ∀ t l, handleSaveCard card t l
                       = if isSaved l card then l else l ++ [withDate card t]).
  { intros t l. unfold handleSaveCard. rewrite isAlreadySaved_spec.
    by destruct (isSaved l card). }
  assert (Hsaved : isSaved (handleSaveCard card now saved) card = true).
  { rewrite Heq. destruct (isSaved saved card) eqn:Hs; [done|].
    apply bool_decide_eq_true_2. rewrite map_app. simpl.
    apply elem_of_app. right. apply list_elem_of_here. }
  split; [done|].
  split; [rewrite Heq; destruct (isSaved saved card); [done|by apply prefix_app_r]|].
  split; [rewrite Heq; destruct (isSaved saved card);
          [lia|rewrite length_app; simpl; lia]|].
  split; [by rewrite (Heq now'), Hsaved|].
  rewrite Heq. destruct (isSaved saved card); [done|].
  split; [|done]. intros Hsame. apply (f_equal length) in Hsame.
  rewrite length_app in Hsame. simpl in Hsame. lia.
Qed.

Lemma handleSaveCard_NoDup_step (card : FlashcardData) (now : N) (saved : list FlashcardData) :
  NoDup (map word saved) → NoDup (map word (handleSaveCard card now saved)).
Proof.
  intros Hnd. unfold handleSaveCard. rewrite isAlreadySaved_spec.
  destruct (isSaved saved card) eqn:Hs; simpl; [done|].
  apply bool_decide_eq_false_1 in Hs.
  rewrite map_app. simpl. apply NoDup_app. split; [done|]. split.
  - intros w Hw ->%list_elem_of_singleton. done.
  - apply NoDup_singleton.
Qed.

(** X22: a deck without repeated words stays without repeated words under
    any number of saves, whatever the cards and whether or not the same
    card comes twice. *)
Theorem handleSaveCard_NoDup (saves : list (FlashcardData * N)) (saved : list FlashcardData) :
  NoDup (map word saved) →
  NoDup (map word (foldl (λ deck save, handleSaveCard save.1 save.2 deck) saved saves)).
Proof.
  revert saved. induction saves as [|[card now] saves IH]; intros saved Hnd; [done|].
  simpl. by apply IH, handleSaveCard_NoDup_step.
Qed.

Lemma handleSaveCard_NoDup_witness :
  NoDup (map word (@nil FlashcardData))
  ∧ NoDup (map word (foldl (λ deck save, handleSaveCard save.1 save.2 deck) []
                       [(ni_hao, 1%N); (ma, 2%N); (ni_hao, 3%N)])).
Proof.
  split; [constructor|].
  apply (handleSaveCard_NoDup [(ni_hao, 1%N); (ma, 2%N); (ni_hao, 3%N)] []). constructor.
Defined.

Lemma autoSaveEffect_eq (autoSave : bool) (generated : list FlashcardData)
    (now : nat → N) (saved : list FlashcardData) :
  autoSaveEffect autoSave generated now saved
  = if autoSave
    then saved ++ imap (λ i card, withDate card (now i))
                    (filter (λ card, word card ∉ map word saved) generated)
    else saved.
Proof.
  unfold autoSaveEffect. destruct autoSave; simpl; [|done].
  case_bool_decide as Hgen.
  - case_bool_decide as Hnew; [done|].
    destruct (imap _ _); [by rewrite app_nil_r|simpl in Hnew; lia].
  - destruct generated; [by rewrite app_nil_r|simpl in Hgen; lia].
Qed.

Lemma filter_new_words_nil (generated saved : list FlashcardData) :
  (∀ card, card ∈ generated → word card ∈ map word saved) →
  filter (λ card, word card ∉ map word saved) generated = [].
Proof.
  induction generated as [|card generated IH]; intros Hall; [done|].
  rewrite filter_cons_False.
  - apply IH. intros c Hc. apply Hall. by right.
  - intros Hnot. apply Hnot, Hall. by left.
Qed.

(** X23: the auto-save effect.  With auto-save on, one run of the effect
    leaves every generated card shown as saved and the cards saved before
    in their places, and the run that its own update of the deck triggers
    adds nothing; with auto-save off a run changes nothing. *)
Theorem autoSaveEffect_settles (autoSave : bool) (generated : list FlashcardData)
    (now now' : nat → N) (saved : list FlashcardData) :
  saved `prefix_of` autoSaveEffect autoSave generated now saved
  ∧ autoSaveEffect autoSave generated now' (autoSaveEffect autoSave generated now saved)
    = autoSaveEffect autoSave generated now saved
  ∧ (if autoSave
     then ∀ card, card ∈ generated →
            isSaved (autoSaveEffect autoSave generated now saved) card = true
     else autoSaveEffect autoSave generated now saved = saved).
Proof.
  rewrite !autoSaveEffect_eq. destruct autoSave; [|done].
  assert (Hall : ∀ card, card ∈ generated →
            word card ∈ map word (saved ++ imap (λ i card, withDate card (now i))
              (filter (λ card, word card ∉ map word saved) generated))).
  { intros card Hcard. rewrite map_app, words_imap_withDate. apply elem_of_app.
    destruct (decide (word card ∈ map word saved)) as [Hin|Hnot]; [by left|].
    right. apply list_elem_of_fmap. exists card. split; [done|].
    by apply list_elem_of_filter. }
  split; [by apply prefix_app_r|]. split.
  - rewrite (filter_new_words_nil generated _ Hall). simpl. by rewrite app_nil_r.
  - intros card Hcard. apply bool_decide_eq_true_2. by apply Hall.
Qed.

(** X24: the auto-save effect keeps a deck without repeated words without
    repeated words exactly when the generated cards whose words are new
    have different words; two generated cards with the same new word are
    both added. *)
Theorem autoSaveEffect_NoDup (generated : list FlashcardData) (now : nat → N)
    (saved : list FlashcardData) :
  NoDup (map word saved) →
  (NoDup (map word (autoSaveEffect true generated now saved))
   ↔ NoDup (map word (filter (λ card, word card ∉ map word saved) generated))).
Proof.
  intros Hnd. rewrite autoSaveEffect_eq, map_app, words_imap_withDate, NoDup_app.
  split; [by intros (_ & _ & ?)|]. intros Hnew.
  split; [done|]. split; [|done].
  intros w Hw (card & -> & Hcard)%list_elem_of_fmap.
  by apply list_elem_of_filter in Hcard as [Hnot _].
Qed.

Lemma autoSaveEffect_NoDup_witness :
  NoDup (map word [ni_hao])
  ∧ (NoDup (map word (autoSaveEffect true [ma; ni_hao; ma] (λ i, N.of_nat i) [ni_hao]))
     ↔ NoDup (map word (filter (λ card, word card ∉ map word [ni_hao]) [ma; ni_hao; ma]))).
Proof.
  assert (Hnd : NoDup (map word [ni_hao])) by (repeat constructor; by intros ?%elem_of_nil).
  split; [done|].
  exact (autoSaveEffect_NoDup [ma; ni_hao; ma] (λ i, N.of_nat i) [ni_hao] Hnd).
Defined.

(** ** What changes the counters and the time *)

Lemma commit_counters (c : Component) (next : LessonSt) :
  score (state (commit c next)) = score next
  ∧ cardsAnswered (state (commit c next)) = cardsAnswered next
  ∧ incorrectAnswers (state (commit c next)) = incorrectAnswers next
  ∧ timeLeft (state (commit c next)) = timeLeft next.
Proof. by destruct (commit_state_cases c next) as [->|(-> & _)]. Qed.

Lemma step_counters_and_time `{Host} (e : Event) (c c' : Component) :
  step e c = Some c' → (∀ D random, e ≠ StartLesson D random) →
  (e ≠ CheckAnswer →
   score (state c') = score (state c)
   ∧ cardsAnswered (state c') = cardsAnswered (state c)
   ∧ incorrectAnswers (state c') = incorrectAnswers (state c))
  ∧ (e ≠ Tick → timeLeft (state c') = timeLeft (state c)).
Proof.
  intros Hstep Hnot.
  destruct e; simpl in Hstep.
  - case_bool_decide; simplify_eq.
    by destruct (commit_counters c (setLessonMode m (state c))) as (-> & -> & -> & ->).
  - by destruct (Hnot flashcards random).
  - case_bool_decide; simplify_eq.
    by destruct (commit_counters c (setUserInput text (state c))) as (-> & -> & -> & ->).
  - case_bool_decide; simplify_eq. split; [done|]. intros _.
    destruct (commit_counters c (default (state c) (handleCheckAnswer (state c))))
      as (_ & _ & _ & ->).
    unfold handleCheckAnswer. destruct (_ || _); simpl; [done|].
    by destruct (currentCardOf (state c)).
  - case_bool_decide; simplify_eq.
    by destruct (commit_counters c (setIsPaused (negb (isPaused (state c))) (state c)))
      as (-> & -> & -> & ->).
  - destruct (_ && _); simplify_eq.
    by destruct (commit_counters c (setIsPaused false (state c))) as (-> & -> & -> & ->).
  - case_bool_decide; simplify_eq.
    by destruct (commit_counters c (setLessonState Setup (state c))) as (-> & -> & -> & ->).
  - case_bool_decide; simplify_eq.
    by destruct (commit_counters c (setLessonState Setup (state c))) as (-> & -> & -> & ->).
  - destruct (tickTimer c); simplify_eq.
    by destruct (commit_counters c (tickCallback (state c))) as (-> & -> & -> & _).
  - destruct (feedbackTimer c) as [[deckLength mode]|]; simplify_eq.
    by destruct (commit_counters c (feedbackCallback deckLength mode r (state c)))
      as (-> & -> & -> & ->).
Qed.

(** X25: the score, the number of answers and the review list change by
    the start of a lesson and by the check of an answer only, the time left
    by the start of a lesson and by a tick only. *)
Theorem counters_and_time_frame `{Host} (e : Event) (c c' : Component) :
  step e c = Some c' → (∀ D random, e ≠ StartLesson D random) →
  (e ≠ CheckAnswer →
   score (state c') = score (state c)
   ∧ cardsAnswered (state c') = cardsAnswered (state c)
   ∧ incorrectAnswers (state c') = incorrectAnswers (state c))
  ∧ (e ≠ Tick → timeLeft (state c') = timeLeft (state c)).
Proof. apply step_counters_and_time. Qed.

(** The feedback timeout that fires in the summary. *)
Lemma counters_and_time_frame_witness :
  ∃ c', @step pinyinHost (FeedbackTimeout 0) expired = Some c'
    ∧ (∀ D random, FeedbackTimeout 0 ≠ StartLesson D random)
    ∧ (FeedbackTimeout 0 ≠ CheckAnswer →
       score (state c') = score (state expired)
       ∧ cardsAnswered (state c') = cardsAnswered (state expired)
       ∧ incorrectAnswers (state c') = incorrectAnswers (state expired))
    ∧ (FeedbackTimeout 0 ≠ Tick → timeLeft (state c') = timeLeft (state expired)).
Proof.
  assert (Hstep : ∃ c', @step pinyinHost (FeedbackTimeout 0) expired = Some c').
  { eexists. vm_compute. reflexivity. }
  destruct Hstep as [c' Hstep]. exists c'. split; [done|].
  assert (Hnot : ∀ D random, FeedbackTimeout 0 ≠ StartLesson D random) by done.
  split; [done|].
  exact (@counters_and_time_frame pinyinHost (FeedbackTimeout 0) expired c' Hstep Hnot).
Defined.

(** X26: while a lesson is paused its time stands still: the event that
    happens is not a tick, and unless it is the start of a new lesson it
    leaves the time left as it is. *)
Theorem paused_time_stands `{Host} (e : Event) (c c' : Component) :
  reachable c → isPaused (state c) = true →
  step e c = Some c' → (∀ D random, e ≠ StartLesson D random) →
  e ≠ Tick ∧ timeLeft (state c') = timeLeft (state c).
Proof.
  intros Hc Hpaused Hstep Hnot. destruct (paused_no_tick c Hc Hpaused) as [_ Htick].
  assert (Hne : e ≠ Tick) by (intros ->; congruence).
  split; [done|]. by apply (step_counters_and_time e c c' Hstep Hnot).
Qed.

(** The feedback timeout that fires under the pause. *)
Lemma paused_time_stands_witness :
  ∃ c', @reachable pinyinHost pausedWithFeedback
    ∧ isPaused (state pausedWithFeedback) = true
    ∧ @step pinyinHost (FeedbackTimeout 0) pausedWithFeedback = Some c'
    ∧ (∀ D random, FeedbackTimeout 0 ≠ StartLesson D random)
    ∧ FeedbackTimeout 0 ≠ Tick
    ∧ timeLeft (state c') = timeLeft (state pausedWithFeedback).
Proof.
  assert (Hreach : @reachable pinyinHost pausedWithFeedback).
  { apply (@run_reachable pinyinHost (typing ++ [CheckAnswer; TogglePause]) mount);
      [constructor|]. by vm_compute. }
  assert (Hstep : ∃ c', @step pinyinHost (FeedbackTimeout 0) pausedWithFeedback = Some c').
  { eexists. vm_compute. reflexivity. }
  destruct Hstep as [c' Hstep].
  assert (Hnot : ∀ D random, FeedbackTimeout 0 ≠ StartLesson D random) by done.
  exists c'. split; [done|]. split; [by vm_compute|]. split; [done|]. split; [done|].
  apply (@paused_time_stands pinyinHost (FeedbackTimeout 0) pausedWithFeedback c');
    [done|by vm_compute|done|done].
Defined.

(** ** The directions that ask for the characters *)









